(** * CasADi [Matrix<T>]: a sparse matrix in compressed row storage

    A shallow embedding of [casadi/matrix/matrix.hpp] and the proofs of the
    properties its specification states.

    Conventions of the embedding.
    - A C++ [int] is a [Z] between [int_min] and [int_max].  The sums and
      products of the shape ([n + 1] and [n * m] in [makeEmpty], [makeDense]
      and the constructors, [size1() * size2()] in [numel]) are taken with
      [wrap], the 32-bit two's-complement result that a signed overflow
      computes in the usual builds; C++ leaves such an overflow undefined,
      and every theorem about a shape assumes that these results fit an
      [int].  The arithmetic on indices ([i + 1], [++ind], [rowind_[row]++])
      is exact: on a matrix that satisfies the invariants it stays below the
      number of rows and of stored entries.
    - A [std::vector<X>] is a [list X].  The matrix derives from
      [std::vector<T>]: that base object is the field [vec].
    - [v[k]] is unchecked in C++: out of range it is undefined behaviour,
      which the embedding records as the outcome [Undefined].  [v.at(k)]
      converts [k] to [size_type], so that a negative [k] is out of range
      as well, and throws [std::out_of_range].
    - A [T&] into the base vector is the position of the slot it refers to.
    - An [std::ostream] is the string written so far. *)

From Stdlib Require Import ZArith Lia String Ascii DecimalString.
From stdpp Require Import base list.

Local Open Scope Z_scope.

(** ** Outcomes *)

Inductive exn : Type :=
  | CasadiException (msg : string)
  | std_out_of_range
  | std_length_error.

Inductive res (A : Type) : Type :=
  | Ret (a : A)
  | Throw (e : exn)
  | Undefined.

Arguments Ret {A} a.
Arguments Throw {A} e.
Arguments Undefined {A}.

Global Instance res_ret : MRet res := @Ret.

Global Instance res_bind : MBind res := λ A B (k : A → res B) (r : res A),
  match r with
  | Ret a => k a
  | Throw e => Throw e
  | Undefined => Undefined
  end.

(** The error taxonomy of the specification, on the exceptions the code
    throws: every error of the matrix is a [CasadiException], told apart by
    its message. *)

Definition getElement_msg : string := "Matrix::getElement: out of bounds".
Definition getElementRef_msg : string := "Matrix::getElementRef: out of bounds".
Definition dimension_msg : string :=
  "Matrix::Matrix(const std::vector<double>& x,  int n, int m): dimension mismatch".
Definition scalar_msg : string := "operator=: argument not scalar".

Definition IndexError (e : exn) : Prop :=
  e = CasadiException getElement_msg ∨ e = CasadiException getElementRef_msg.

Definition DimensionError (e : exn) : Prop :=
  e = CasadiException dimension_msg.

(** ** [int] and [size_t] *)

Definition int_min : Z := -2147483648.
Definition int_max : Z := 2147483647.

(** The [int] that a sum or product of [int]s gives: the value modulo
    [2^32], in the range of [int]. *)
Definition wrap (z : Z) : Z := (z - int_min) mod 4294967296 + int_min.

(** The conversion of an [int] to [size_t], modulo [2^64]. *)
Definition size_t_of_int (z : Z) : Z := z mod 18446744073709551616.

(** A shape whose sides, [n + 1] and [n * m] are [int]s, and that has no
    negative side. *)
Definition shape_fits (n m : Z) : Prop :=
  0 ≤ n < int_max ∧ 0 ≤ m ≤ int_max ∧ n * m ≤ int_max.

(** ** [std::vector] with [int] arguments *)

Module Vec.
Section Vec.
Context {A : Type}.

(** [v[k]] *)
Definition idx (v : list A) (k : Z) : option A :=
if k <? 0 then None else v !! Z.to_nat k.

(** [v.at(k)] *)
Definition at_ (v : list A) (k : Z) : res A :=
match idx v k with
| Some x => Ret x
| None => Throw std_out_of_range
end.

(** [v[k] = x] *)
Definition store (v : list A) (k : Z) (x : A) : option (list A) :=
match idx v k with
| Some _ => Some (<[Z.to_nat k := x]> v)
| None => None
end.

(** [v.insert(v.begin()+k, x)]: the iterator has to lie in
  [[begin, end]]. *)
Definition insert (v : list A) (k : Z) (x : A) : option (list A) :=
if (0 <=? k) && (k <=? Z.of_nat (length v))
then Some (take (Z.to_nat k) v ++ x :: drop (Z.to_nat k) v)
else None.

(** [v.resize(k, x)]: a negative [int] converts to a [size_type] above
  [max_size()]. *)
Definition resize (v : list A) (k : Z) (x : A) : res (list A) :=
if k <? 0 then Throw std_length_error
else Ret (list.resize (Z.to_nat k) x v).

(** [v.back() = x] *)
Definition store_back (v : list A) (x : A) : option (list A) :=
match v with
| [] => None
| _ :: _ => Some (<[(length v - 1)%nat := x]> v)
end.

(** [copy(src.begin(), src.end(), v.begin())] *)
Definition copy (src v : list A) : option (list A) :=
if (length src <=? length v)%nat
then Some (src ++ drop (length src) v)
else None.
End Vec.
End Vec.

(** ** Counted loops

    [for (int i = lo; i < hi; ++i) body] with a body that changes neither
    [i] nor [hi] runs [hi - lo] times, or not at all when [hi <= lo].  A
    body that hits undefined behaviour yields [None]. *)

Fixpoint for_ {S : Type} (n : nat) (i : Z) (body : Z → S → option S) (s : S)
  : option S :=
  match n with
  | O => Some s
  | Datatypes.S n' =>
      match body i s with
      | Some s' => for_ n' (i + 1) body s'
      | None => None
      end
  end.

Definition for_range {S : Type} (lo hi : Z) (body : Z → S → option S) (s : S)
  : option S :=
  for_ (Z.to_nat (hi - lo)) lo body s.

(** The scan of a row, shared by [getElement] and [getElementRef]:
<<
  for (ind = lo; ind < hi; ++ind) {
    if (col_[ind] == j) return ...at(ind);
    else if (col_[ind] > j) break;
  }
>>
    [n] counts the iterations that are left, [hi - ind]. *)

Inductive scan_result : Type :=
  | Found (ind : Z)      (* left by the [return] *)
  | Stop (ind : Z)       (* left by [break] or by the loop test *)
  | ScanUndefined.

Fixpoint scan (col : list Z) (j hi : Z) (n : nat) (ind : Z) : scan_result :=
  match n with
  | O => Stop ind
  | S n' =>
      if ind <? hi then
        match Vec.idx col ind with
        | None => ScanUndefined
        | Some c =>
            if c =? j then Found ind
            else if c >? j then Stop ind
            else scan col j hi n' (ind + 1)
        end
      else Stop ind
  end.

(** ** The matrix *)

Section Matrix.
Context {T : Type}.
(** [T(0)] and [T(1)]: the code writes [return 0], [insert(..., 0)] and
    [makeDense(n, m, 1)]. *)
Variable zero : T.
Variable one : T.

Record Matrix : Type := mkMatrix {
  vec : list T;
  col_ : list Z;
  rowind_ : list Z;
  nrow_ : Z;
  ncol_ : Z
}.

Definition size1 (M : Matrix) : Z := nrow_ M.
Definition size2 (M : Matrix) : Z := ncol_ M.
Definition numel (M : Matrix) : Z := wrap (size1 M * size2 M).
Definition empty (M : Matrix) : bool := numel M =? 0.
Definition scalar (M : Matrix) : bool := (size1 M =? 1) && (size2 M =? 1).
Definition vector (M : Matrix) : bool := size2 M =? 1.

Definition set_vec (v : list T) (M : Matrix) : Matrix :=
  mkMatrix v (col_ M) (rowind_ M) (nrow_ M) (ncol_ M).
Definition set_col (c : list Z) (M : Matrix) : Matrix :=
  mkMatrix (vec M) c (rowind_ M) (nrow_ M) (ncol_ M).
Definition set_rowind (r : list Z) (M : Matrix) : Matrix :=
  mkMatrix (vec M) (col_ M) r (nrow_ M) (ncol_ M).
Definition set_shape (n m : Z) (M : Matrix) : Matrix :=
  mkMatrix (vec M) (col_ M) (rowind_ M) n m.

(** *** Statements in sequence

    A member function that may change the matrix maps the matrix before
    the call to an outcome and the matrix after it; an exception leaves
    the matrix as it was when it was thrown. *)

Definition st (X : Type) : Type := Matrix → res X * Matrix.

Definition st_bind {X Y} (p : st X) (q : X → st Y) : st Y := λ M,
  match p M with
  | (Ret x, M') => q x M'
  | (Throw e, M') => (Throw e, M')
  | (Undefined, M') => (Undefined, M')
  end.

(** A [const] member function reads the matrix and leaves it alone. *)
Definition st_const {X} (f : Matrix → res X) : st X := λ M, (f M, M).

(** *** Read access *)

Definition getElement (M : Matrix) (i j : Z) : res T :=
  if (i >=? size1 M) || (j >=? size2 M)
  then Throw (CasadiException getElement_msg)
  else
    lo ← Vec.at_ (rowind_ M) i;
    hi ← Vec.at_ (rowind_ M) (i + 1);
    match scan (col_ M) j hi (Z.to_nat (hi - lo)) lo with
    | Found ind => Vec.at_ (vec M) ind
    | Stop _ => Ret zero
    | ScanUndefined => Undefined
    end.

(** *** Write access

    The result is the position in [vec] that the returned [T&] refers
    to, next to the matrix after the call. *)

(** [rowind_[row]++] *)
Definition bump (row : Z) (r : list Z) : option (list Z) :=
  match Vec.idx r row with
  | Some x => Vec.store r row (x + 1)
  | None => None
  end.

Definition getElementRef (i j : Z) : st Z := λ M,
  if (i >=? size1 M) || (j >=? size2 M)
  then (Throw (CasadiException getElementRef_msg), M)
  else
    match Vec.idx (rowind_ M) i, Vec.idx (rowind_ M) (i + 1) with
    | Some lo, Some hi =>
        match scan (col_ M) j hi (Z.to_nat (hi - lo)) lo with
        | Found ind => (Vec.at_ (vec M) ind;; Ret ind, M)
        | Stop ind =>
            match Vec.insert (vec M) ind zero with
            | None => (Undefined, M)
            | Some v =>
                let M1 := set_vec v M in
                match Vec.insert (col_ M1) ind j with
                | None => (Undefined, M1)
                | Some c =>
                    let M2 := set_col c M1 in
                    match for_range (i + 1) (size1 M2 + 1) bump (rowind_ M2) with
                    | None => (Undefined, M2)
                    | Some r =>
                        let M3 := set_rowind r M2 in
                        (Vec.at_ (vec M3) ind;; Ret ind, M3)
                    end
                end
            end
        | ScanUndefined => (Undefined, M)
        end
    | _, _ => (Undefined, M)
    end.

(** [ref = v] for a reference obtained from [getElementRef]. *)
Definition assign (v : T) (k : Z) : st unit := λ M,
  match Vec.store (vec M) k v with
  | Some d => (Ret tt, set_vec d M)
  | None => (Undefined, M)
  end.

(** [getElementRef(i, j) = v] *)
Definition setElement (i j : Z) (v : T) : st unit :=
  st_bind (getElementRef i j) (assign v).

(** *** (Re-)initialisation *)

Definition makeEmpty (n m : Z) : st unit := λ M,
  let M1 := set_shape n m M in
  let M2 := set_rowind [] (set_col [] (set_vec [] M1)) in
  match Vec.resize (rowind_ M2) (wrap (n + 1)) 0 with
  | Ret r => (Ret tt, set_rowind r M2)
  | Throw e => (Throw e, M2)
  | Undefined => (Undefined, M2)
  end.

(** The body of the inner loop of [makeDense], [col_[el] = j; el++], on
    the pair of [el] and [col_]. *)
Definition dense_col (j : Z) (s : Z * list Z) : option (Z * list Z) :=
  let '(el, c) := s in
  c' ← Vec.store c el j;
  Some (el + 1, c').

(** The body of its outer loop, on [el], [col_] and [rowind_]. *)
Definition dense_row (m : Z) (i : Z) (s : Z * list Z * list Z)
  : option (Z * list Z * list Z) :=
  let '(el, c, r) := s in
  r' ← Vec.store r i el;
  '(el', c') ← for_range 0 m dense_col (el, c);
  Some (el', c', r').

Definition makeDense (n m : Z) (val : T) : st unit := λ M,
  let M1 := set_shape n m M in
  let M2 := set_vec [] M1 in
  match Vec.resize (vec M2) (wrap (n * m)) val with
  | Ret v =>
      let M3 := set_vec v M2 in
      match Vec.resize (col_ M3) (wrap (n * m)) 0 with
      | Ret c =>
          let M4 := set_col c M3 in
          match Vec.resize (rowind_ M4) (wrap (n + 1)) 0 with
          | Ret r =>
              let M5 := set_rowind r M4 in
              match for_range 0 (size1 M5) (dense_row (size2 M5))
                      (0, col_ M5, rowind_ M5) with
              | Some (el, c', r') =>
                  let M6 := set_rowind r' (set_col c' M5) in
                  match Vec.store_back (rowind_ M6) el with
                  | Some r'' => (Ret tt, set_rowind r'' M6)
                  | None => (Undefined, M6)
                  end
              | None => (Undefined, M5)
              end
          | Throw e => (Throw e, M4)
          | Undefined => (Undefined, M4)
          end
      | Throw e => (Throw e, M3)
      | Undefined => (Undefined, M3)
      end
  | Throw e => (Throw e, M2)
  | Undefined => (Undefined, M2)
  end.

(** *** Constructors

    A constructor runs its body on an object whose three vectors are
    empty.  [nrow_] and [ncol_] are not initialised at that point; every
    constructor assigns them in its first call, before anything reads
    them, and [0] stands for their indeterminate value.  A constructor left
    by an exception constructs nothing. *)

Definition raw : Matrix := mkMatrix [] [] [] 0 0.

Definition construct (body : st unit) : res Matrix :=
  match body raw with
  | (Ret _, M) => Ret M
  | (Throw e, _) => Throw e
  | (Undefined, _) => Undefined
  end.

(** [Matrix()] *)
Definition Matrix_default : res Matrix := construct (makeEmpty 0 0).

(** [Matrix(int n, int m)] *)
Definition Matrix_empty (n m : Z) : res Matrix := construct (makeEmpty n m).

(** [Matrix(int n, int m, const T& val)] *)
Definition Matrix_dense (n m : Z) (val : T) : res Matrix :=
  construct (makeDense n m val).

(** [Matrix(const T& val)] *)
Definition Matrix_scalar (val : T) : res Matrix :=
  construct (st_bind (makeEmpty 1 1) (λ _, setElement 0 0 val)).

Section FromVector.
Context {A : Type}.
(** The conversion from [A] to [T] that [copy] applies to each
    element. *)
Variable conv : A → T.

Definition copy_in (x : list A) : st unit := λ M,
  match Vec.copy (conv <$> x) (vec M) with
  | Some v => (Ret tt, set_vec v M)
  | None => (Undefined, M)
  end.

(** [Matrix(const std::vector<A>& x)]: [x.size()] converts to the [int]
    parameter of [makeDense]. *)
Definition Matrix_vector (x : list A) : res Matrix :=
  construct (st_bind (makeDense (wrap (Z.of_nat (length x))) 1 one)
               (λ _, copy_in x)).

(** [Matrix(const std::vector<A>& x, int n, int m)].  The test
    [x.size() != n*m] multiplies in [int] and compares at type [size_t],
    to which the product converts. *)
Definition Matrix_shaped (x : list A) (n m : Z) : res Matrix :=
  if negb (Z.of_nat (length x) =? size_t_of_int (wrap (n * m)))
  then Throw (CasadiException dimension_msg)
  else construct (st_bind (makeDense n m one) (λ _, copy_in x)).
End FromVector.

(** *** Printing *)

(** [stream << x] for an element [x]. *)
Variable render : T → string.

(** [stream << k] for an [int]. *)
Definition render_int (k : Z) : string := NilZero.string_of_int (Z.to_int k).

Definition ostream : Type := string.
Definition pr : Type := ostream → res unit * ostream.

Definition put (s : string) : pr := λ out, (Ret tt, (out ++ s)%string).

(** [stream << m(i, j)] for the matrix [m] itself: the [const] call
    operator is [getElement]. *)
Definition put_elem (M : Matrix) (i j : Z) : pr := λ out,
  match getElement M i j with
  | Ret x => put (render x) out
  | Throw e => (Throw e, out)
  | Undefined => (Undefined, out)
  end.

Definition pr_seq (p q : pr) : pr := λ out,
  match p out with
  | (Ret _, out') => q out'
  | r => r
  end.

Infix ">>" := pr_seq (at level 61, left associativity).

Fixpoint pr_for_ (n : nat) (i : Z) (body : Z → pr) : pr :=
  match n with
  | O => λ out, (Ret tt, out)
  | S n' => body i >> pr_for_ n' (i + 1) body
  end.

Definition pr_for (lo hi : Z) (body : Z → pr) : pr :=
  pr_for_ (Z.to_nat (hi - lo)) lo body.

Definition pr_throw (e : exn) : pr := λ out, (Throw e, out).

Definition printScalar (M : Matrix) : pr :=
  if negb (numel M =? 1) then pr_throw (CasadiException scalar_msg)
  else put_elem M 0 0.

Definition printVector (M : Matrix) : pr :=
  put "[" >> put (render_int (size1 M)) >> put "](" >>
  put_elem M 0 0 >>
  pr_for 1 (size1 M) (λ i, put "," >> put_elem M i 0) >>
  put ")".

Definition printMatrix (M : Matrix) : pr :=
  put "[" >> put (render_int (size1 M)) >> put "," >>
    put (render_int (size2 M)) >> put "]" >>
  put "((" >>
  put_elem M 0 0 >>
  pr_for 1 (size2 M) (λ j, put "," >> put_elem M 0 j) >>
  put ")" >>
  pr_for 1 (size1 M) (λ i,
    put ",(" >>
    put_elem M i 0 >>
    pr_for 1 (size2 M) (λ j, put "," >> put_elem M i j) >>
    put ")") >>
  put ")".

Definition print (M : Matrix) : pr :=
  if empty M then put "<empty expression>"
  else if numel M =? 1 then printScalar M
  else if size2 M =? 1 then printVector M
  else printMatrix M.

End Matrix.

Arguments Matrix T : clear implicits.
Arguments st T X : clear implicits.

(** ** The invariants of the storage *)

(** The slots [[lo, hi)] of [col] hold strictly increasing columns. *)
Definition sorted_slice (col : list Z) (lo hi : Z) : Prop :=
  ∀ k c c', lo ≤ k → k + 1 < hi →
    Vec.idx col k = Some c → Vec.idx col (k + 1) = Some c' → c < c'.

Section Invariants.
Context {T : Type}.
Implicit Types (M : Matrix T).

(** Invariants 1 to 3 of the data model. *)
Record Inv M : Prop := {
  inv_length : Z.of_nat (length (rowind_ M)) = nrow_ M + 1;
  inv_first : Vec.idx (rowind_ M) 0 = Some 0;
  inv_last : Vec.idx (rowind_ M) (nrow_ M) = Some (Z.of_nat (length (vec M)));
  inv_nnz : length (vec M) = length (col_ M);
  inv_mono : ∀ i a b,
    Vec.idx (rowind_ M) i = Some a → Vec.idx (rowind_ M) (i + 1) = Some b →
    a ≤ b;
  inv_sorted : ∀ i a b,
    Vec.idx (rowind_ M) i = Some a → Vec.idx (rowind_ M) (i + 1) = Some b →
    sorted_slice (col_ M) a b
}.

(** Invariant 5: the stored columns are columns of the matrix. *)
Definition cols_in_range M : Prop :=
  ∀ k c, Vec.idx (col_ M) k = Some c → 0 ≤ c < ncol_ M.

(** The data model: invariants 1 to 3 and 5 on a shape without a negative
    number of columns (invariant 4 is the reading of [vec] and [col_] as
    parallel arrays, which [slot] below writes out). *)
Definition WF M : Prop := Inv M ∧ cols_in_range M ∧ 0 ≤ ncol_ M.

(** Slot [k] stores the coordinate [(i, j)]. *)
Definition slot M (i j k : Z) : Prop :=
  ∃ lo hi, Vec.idx (rowind_ M) i = Some lo ∧
           Vec.idx (rowind_ M) (i + 1) = Some hi ∧
           lo ≤ k < hi ∧ Vec.idx (col_ M) k = Some j.

(** The coordinate [(i, j)] is in the sparsity pattern. *)
Definition stored M (i j : Z) : Prop := ∃ k, slot M i j k.

(** What [makeDense] leaves in the pattern: row [x] starts at [x * m] and
    holds the columns [0, ..., m - 1]. *)
Record dense_pattern M (n m : Z) : Prop := {
  dp_nrow : nrow_ M = n;
  dp_ncol : ncol_ M = m;
  dp_vec : Z.of_nat (length (vec M)) = n * m;
  dp_col : Z.of_nat (length (col_ M)) = n * m;
  dp_rowind : Z.of_nat (length (rowind_ M)) = n + 1;
  dp_rows : ∀ x, 0 ≤ x ≤ n → Vec.idx (rowind_ M) x = Some (x * m);
  dp_cols : ∀ x j, 0 ≤ x < n → 0 ≤ j < m → Vec.idx (col_ M) (x * m + j) = Some j
}.

(** The invariants, as a test. *)

Definition check_slice (col : list Z) (a b : Z) : bool :=
  forallb (λ k, match Vec.idx col k, Vec.idx col (k + 1) with
                | Some c, Some c' => c <? c'
                | _, _ => true
                end) (seqZ a (b - a - 1)).

Definition check_row M (i : Z) : bool :=
  match Vec.idx (rowind_ M) i, Vec.idx (rowind_ M) (i + 1) with
  | Some a, Some b => (a <=? b) && check_slice (col_ M) a b
  | _, _ => false
  end.

Definition check_inv M : bool :=
  (Z.of_nat (length (rowind_ M)) =? nrow_ M + 1) &&
  match Vec.idx (rowind_ M) 0 with Some a => a =? 0 | None => false end &&
  match Vec.idx (rowind_ M) (nrow_ M) with
  | Some a => a =? Z.of_nat (length (vec M))
  | None => false
  end &&
  (Z.of_nat (length (vec M)) =? Z.of_nat (length (col_ M))) &&
  forallb (check_row M) (seqZ 0 (nrow_ M)).

Definition check_cols M : bool :=
  forallb (λ c, (0 <=? c) && (c <? ncol_ M)) (col_ M).

End Invariants.

(** ** Programs over the public interface

    A program constructs a matrix and calls public member functions on it,
    one after the other. *)

Section Program.
Context {T A : Type}.
Variables (zero one : T) (conv : A → T).

Inductive ctor : Type :=
  | New                                    (* [Matrix()] *)
  | NewEmpty (n m : Z)                     (* [Matrix(n, m)] *)
  | NewDense (n m : Z) (val : T)           (* [Matrix(n, m, val)] *)
  | NewScalar (val : T)                    (* [Matrix(val)] *)
  | NewVector (x : list A)                 (* [Matrix(x)] *)
  | NewShaped (x : list A) (n m : Z).      (* [Matrix(x, n, m)] *)

Inductive op : Type :=
  | OpGet (i j : Z)                        (* [getElement(i, j)] *)
  | OpRef (i j : Z)                        (* [getElementRef(i, j)] *)
  | OpSet (i j : Z) (v : T)                (* [getElementRef(i, j) = v] *)
  | OpMakeDense (n m : Z) (val : T)        (* [makeDense(n, m, val)] *)
  | OpMakeEmpty (n m : Z).                 (* [makeEmpty(n, m)] *)

Definition new (c : ctor) : res (Matrix T) :=
  match c with
  | New => Matrix_default
  | NewEmpty n m => Matrix_empty n m
  | NewDense n m val => Matrix_dense n m val
  | NewScalar val => Matrix_scalar zero val
  | NewVector x => Matrix_vector one conv x
  | NewShaped x n m => Matrix_shaped one conv x n m
  end.

(** A call whose result is not used. *)
Definition call {X} (p : st T X) : st T unit :=
  st_bind p (λ _ M, (Ret (), M)).

Definition exec (o : op) : st T unit :=
  match o with
  | OpGet i j => call (st_const (λ M, getElement zero M i j))
  | OpRef i j => call (getElementRef zero i j)
  | OpSet i j v => setElement zero i j v
  | OpMakeDense n m val => makeDense n m val
  | OpMakeEmpty n m => makeEmpty n m
  end.

Fixpoint run (ops : list op) : st T unit :=
  match ops with
  | [] => λ M, (Ret (), M)
  | o :: ops' => st_bind (exec o) (λ _, run ops')
  end.

(** The matrix a program ends with. *)
Definition program (c : ctor) (ops : list op) : res (Matrix T) :=
  M ← new c;
  match run ops M with
  | (Ret _, M') => Ret M'
  | (Throw e, _) => Throw e
  | (Undefined, _) => Undefined
  end.

(** The valid calls: a shape has no negative side and fits
    ([shape_fits]), a flat sequence fills its shape, a coordinate lies in
    the shape of the matrix.  The shape of the matrix is the one its
    constructor or its last re-initialisation gave it. *)

Definition valid_shape (n m : Z) : bool :=
  (0 <=? n) && (n <? int_max) && (0 <=? m) && (m <=? int_max) &&
  (n * m <=? int_max).

Definition in_bounds (s : Z * Z) (i j : Z) : bool :=
  (0 <=? i) && (i <? s.1) && (0 <=? j) && (j <? s.2).

Definition valid_ctor (c : ctor) : bool :=
  match c with
  | New | NewScalar _ => true
  | NewVector x => valid_shape (Z.of_nat (length x)) 1
  | NewEmpty n m | NewDense n m _ => valid_shape n m
  | NewShaped x n m => valid_shape n m && (Z.of_nat (length x) =? n * m)
  end.

Definition shape_of (c : ctor) : Z * Z :=
  match c with
  | New => (0, 0)
  | NewEmpty n m | NewDense n m _ | NewShaped _ n m => (n, m)
  | NewScalar _ => (1, 1)
  | NewVector x => (Z.of_nat (length x), 1)
  end.

Fixpoint valid_ops (s : Z * Z) (ops : list op) : bool :=
  match ops with
  | [] => true
  | (OpGet i j | OpRef i j | OpSet i j _) :: ops' =>
      in_bounds s i j && valid_ops s ops'
  | (OpMakeDense n m _ | OpMakeEmpty n m) :: ops' =>
      valid_shape n m && valid_ops (n, m) ops'
  end.
End Program.

(** ** The serialisation, as the specification words it

    The number of elements of the specification is the product of the two
    sides. *)

Section Format.
Context {T : Type}.
Variables (zero : T) (render : T → string).

(** What [get] reads at a coordinate. *)
Definition value (M : Matrix T) (i j : Z) : T :=
  match getElement zero M i j with
  | Ret x => x
  | _ => zero
  end.

Definition join (sep : string) (l : list string) : string :=
  String.concat sep l.

Definition format_column (M : Matrix T) : string :=
  join "," ((λ i, render (value M i 0)) <$> seqZ 0 (nrow_ M)).

Definition format_row (M : Matrix T) (i : Z) : string :=
  join "," ((λ j, render (value M i j)) <$> seqZ 0 (ncol_ M)).

Definition format (M : Matrix T) : string :=
  if nrow_ M * ncol_ M =? 0 then "<empty expression>"%string
  else if nrow_ M * ncol_ M =? 1 then render (value M 0 0)
  else if (ncol_ M =? 1) && (1 <? nrow_ M) then
    ("[" ++ render_int (nrow_ M) ++ "](" ++ format_column M ++ ")")%string
  else
    ("[" ++ render_int (nrow_ M) ++ "," ++ render_int (ncol_ M) ++ "](" ++
     join "," ((λ i, "(" ++ format_row M i ++ ")") <$> seqZ 0 (nrow_ M)) ++
     ")")%string.
End Format.

(** A printer ends normally after it has appended [s] to the stream. *)
Definition writes (p : pr) (s : string) : Prop :=
  ∀ out : ostream, p out = (Ret (), (out ++ s)%string).

(** ** The accessors of the sparsity pattern

    [col(int el)] and [rowind(int row)], the two accessors that read one
    entry, through [at]. *)

Module Pattern.
Definition col {T : Type} (M : Matrix T) (el : Z) : res Z :=
  Vec.at_ (col_ M) el.

Definition rowind {T : Type} (M : Matrix T) (row : Z) : res Z :=
  Vec.at_ (rowind_ M) row.
End Pattern.

(** * Proofs *)

(** ** Integers *)

Lemma wrap_id z : int_min ≤ z ≤ int_max → wrap z = z.
Proof.
  unfold wrap, int_min, int_max. intros Hz.
  rewrite Z.mod_small by lia. lia.
Qed.

Lemma size_t_of_int_id z : 0 ≤ z ≤ int_max → size_t_of_int z = z.
Proof.
  unfold size_t_of_int, int_max. intros Hz. apply Z.mod_small. lia.
Qed.

Lemma shape_fits_wrap n m :
  shape_fits n m → wrap (n + 1) = n + 1 ∧ wrap (n * m) = n * m.
Proof.
  unfold shape_fits. intros (Hn & Hm & Hnm).
  split; apply wrap_id; unfold int_min, int_max in *; nia.
Qed.

Lemma valid_shape_spec n m : valid_shape n m = true ↔ shape_fits n m.
Proof.
  unfold valid_shape, shape_fits.
  rewrite !andb_true_iff, !Z.leb_le, Z.ltb_lt. lia.
Qed.

(** ** Vectors *)

Section VecFacts.
Context {A : Type}.
Implicit Types (v : list A) (k : Z) (x : A).

Lemma idx_Some v k x : Vec.idx v k = Some x → 0 ≤ k < Z.of_nat (length v).
Proof.
  unfold Vec.idx. destruct (Z.ltb_spec k 0); [done|].
  intros Hx%lookup_lt_Some. lia.
Qed.

Lemma idx_is_Some v k : 0 ≤ k < Z.of_nat (length v) → is_Some (Vec.idx v k).
Proof.
  intros Hk. unfold Vec.idx. destruct (Z.ltb_spec k 0); [lia|].
  apply lookup_lt_is_Some. lia.
Qed.

Lemma idx_None v k : ¬ (0 ≤ k < Z.of_nat (length v)) → Vec.idx v k = None.
Proof.
  intros Hk. destruct (Vec.idx v k) eqn:E; [|done].
  apply idx_Some in E. lia.
Qed.

Lemma idx_nat v (n : nat) : Vec.idx v (Z.of_nat n) = v !! n.
Proof.
  unfold Vec.idx. destruct (Z.ltb_spec (Z.of_nat n) 0); [lia|].
  by rewrite Nat2Z.id.
Qed.

Lemma idx_ext v w : (∀ k, Vec.idx v k = Vec.idx w k) → v = w.
Proof.
  intros H. apply list_eq. intros n. by rewrite <- !idx_nat.
Qed.

Lemma store_Some v k x :
  0 ≤ k < Z.of_nat (length v) → ∃ v', Vec.store v k x = Some v'.
Proof.
  intros Hk. unfold Vec.store.
  destruct (idx_is_Some v k Hk) as [y ->]. eauto.
Qed.

Lemma store_length v k x v' :
  Vec.store v k x = Some v' → length v' = length v.
Proof.
  unfold Vec.store. destruct (Vec.idx v k); [|done].
  intros [= <-]. apply length_insert.
Qed.

Lemma idx_store v k x v' k' :
  Vec.store v k x = Some v' →
  Vec.idx v' k' = if k' =? k then Some x else Vec.idx v k'.
Proof.
  unfold Vec.store. destruct (Vec.idx v k) eqn:E; [|done].
  intros [= <-]. apply idx_Some in E.
  destruct (Z.eqb_spec k' k) as [->|Hne].
  - unfold Vec.idx. destruct (Z.ltb_spec k 0); [lia|].
    apply list_lookup_insert_eq. lia.
  - unfold Vec.idx. destruct (Z.ltb_spec k' 0); [done|].
    apply list_lookup_insert_ne. lia.
Qed.

Lemma insert_Some v k x :
  0 ≤ k ≤ Z.of_nat (length v) → ∃ v', Vec.insert v k x = Some v'.
Proof.
  intros Hk. unfold Vec.insert.
  destruct (Z.leb_spec 0 k); [|lia].
  destruct (Z.leb_spec k (Z.of_nat (length v))); [|lia]. eauto.
Qed.

Lemma insert_inv v k x v' :
  Vec.insert v k x = Some v' →
  0 ≤ k ≤ Z.of_nat (length v) ∧
  v' = take (Z.to_nat k) v ++ x :: drop (Z.to_nat k) v.
Proof.
  unfold Vec.insert.
  destruct (Z.leb_spec 0 k); [|done].
  destruct (Z.leb_spec k (Z.of_nat (length v))); [|done].
  intros [= <-]. split; [lia|done].
Qed.

Lemma insert_length v k x v' :
  Vec.insert v k x = Some v' → length v' = S (length v).
Proof.
  intros [Hk ->]%insert_inv.
  rewrite length_app, length_take, length_cons, length_drop. lia.
Qed.

(** The slots before [k] stay, the slots from [k] on move up by one. *)
Lemma idx_insert v k x v' k' :
  Vec.insert v k x = Some v' →
  Vec.idx v' k' =
    if k' <? k then Vec.idx v k'
    else if k' =? k then Some x
    else Vec.idx v (k' - 1).
Proof.
  intros [Hk ->]%insert_inv.
  destruct (Z.ltb_spec k' k) as [Hlt|Hge].
  - unfold Vec.idx. destruct (Z.ltb_spec k' 0); [done|].
    rewrite lookup_app_l by (rewrite length_take; lia).
    apply lookup_take_lt. lia.
  - destruct (Z.eqb_spec k' k) as [->|Hne].
    + unfold Vec.idx. destruct (Z.ltb_spec k 0); [lia|].
      rewrite lookup_app_r by (rewrite length_take; lia).
      rewrite length_take.
      replace (Z.to_nat k - Z.to_nat k `min` length v)%nat with 0%nat by lia.
      done.
    + unfold Vec.idx.
      destruct (Z.ltb_spec k' 0); [lia|].
      destruct (Z.ltb_spec (k' - 1) 0); [lia|].
      rewrite lookup_app_r by (rewrite length_take; lia).
      rewrite length_take.
      replace (Z.to_nat k' - Z.to_nat k `min` length v)%nat
        with (S (Z.to_nat (k' - 1) - Z.to_nat k))%nat by lia.
      simpl. rewrite lookup_drop. f_equal. lia.
Qed.

Lemma at_Ret v k x : Vec.idx v k = Some x → Vec.at_ v k = Ret x.
Proof. unfold Vec.at_. by intros ->. Qed.
End VecFacts.

(** ** Loops *)

(** The rule of the counted loop: an invariant that holds at [lo] and that
    the body maintains, without undefined behaviour, holds at [hi]. *)
Lemma for_range_inv {S : Type} (P : Z → S → Prop) lo hi body (s : S) :
  lo ≤ hi →
  P lo s →
  (∀ i t, lo ≤ i < hi → P i t → ∃ t', body i t = Some t' ∧ P (i + 1) t') →
  ∃ s', for_range lo hi body s = Some s' ∧ P hi s'.
Proof.
  unfold for_range. intros Hle.
  remember (Z.to_nat (hi - lo)) as n eqn:Hn.
  revert lo s Hle Hn. induction n as [|n IH]; intros lo s Hle Hn H0 Hstep.
  - replace hi with lo by lia. simpl. eauto.
  - destruct (Hstep lo s) as (t & Hb & Ht); [lia|done|].
    simpl. rewrite Hb. apply IH; [lia|lia|done|].
    intros i u Hi. apply Hstep. lia.
Qed.

Lemma for_range_empty {S : Type} lo hi body (s : S) :
  hi ≤ lo → for_range lo hi body s = Some s.
Proof.
  intros H. unfold for_range. by replace (Z.to_nat (hi - lo)) with 0%nat by lia.
Qed.

(** The scan of the slots [[lo, hi)] of a column vector that has them. *)
Lemma scan_spec col j hi n ind :
  n = Z.to_nat (hi - ind) →
  0 ≤ ind ≤ hi → hi ≤ Z.of_nat (length col) →
  match scan col j hi n ind with
  | Found k =>
      ind ≤ k < hi ∧ Vec.idx col k = Some j ∧
      (∀ k', ind ≤ k' < k → ∃ c, Vec.idx col k' = Some c ∧ c < j)
  | Stop k =>
      ind ≤ k ≤ hi ∧
      (∀ k', ind ≤ k' < k → ∃ c, Vec.idx col k' = Some c ∧ c < j) ∧
      (k < hi → ∃ c, Vec.idx col k = Some c ∧ j < c)
  | ScanUndefined => False
  end.
Proof.
  revert ind. induction n as [|n IH]; intros ind Hn Hind Hhi; simpl.
  - split; [lia|]. split; intros; lia.
  - destruct (Z.ltb_spec ind hi) as [Hlt|Hge]; [|lia].
    destruct (idx_is_Some col ind) as [c Hc]; [lia|]. rewrite Hc.
    destruct (Z.eqb_spec c j) as [->|Hne].
    { split; [lia|]. split; [done|]. intros; lia. }
    destruct (Z.gtb_spec c j) as [Hgt|Hle].
    { split; [lia|]. split; [intros; lia|]. eauto. }
    specialize (IH (ind + 1)). 
    destruct (scan col j hi n (ind + 1)) as [k|k|].
    + destruct IH as (Hk & Hj & Hbefore); [lia|lia|done|].
      split; [lia|]. split; [done|].
      intros k' Hk'. destruct (Z.eq_dec k' ind) as [->|].
      * exists c. split; [done|lia].
      * apply Hbefore. lia.
    + destruct IH as (Hk & Hbefore & Hat); [lia|lia|done|].
      split; [lia|]. split; [|done].
      intros k' Hk'. destruct (Z.eq_dec k' ind) as [->|].
      * exists c. split; [done|lia].
      * apply Hbefore. lia.
    + apply IH; [lia|lia|done].
Qed.

Ltac zbool :=
  repeat match goal with
  | |- context [?a <? ?b] => destruct (Z.ltb_spec a b)
  | |- context [?a <=? ?b] => destruct (Z.leb_spec a b)
  | |- context [?a =? ?b] => destruct (Z.eqb_spec a b)
  | |- context [?a >=? ?b] => destruct (Z.geb_spec a b)
  | |- context [?a >? ?b] => destruct (Z.gtb_spec a b)
  | H : context [?a <? ?b] |- _ => destruct (Z.ltb_spec a b)
  | H : context [?a <=? ?b] |- _ => destruct (Z.leb_spec a b)
  | H : context [?a =? ?b] |- _ => destruct (Z.eqb_spec a b)
  | H : context [?a >=? ?b] |- _ => destruct (Z.geb_spec a b)
  | H : context [?a >? ?b] |- _ => destruct (Z.gtb_spec a b)
  end; simpl in *.

Lemma sorted_slice_lt col lo hi k k' c c' :
  sorted_slice col lo hi → hi ≤ Z.of_nat (length col) → 0 ≤ lo →
  lo ≤ k → k < k' → k' < hi →
  Vec.idx col k = Some c → Vec.idx col k' = Some c' → c < c'.
Proof.
  intros Hs Hhi Hlo Hk Hlt Hk'.
  remember (Z.to_nat (k' - k - 1)) as d eqn:Hd.
  revert k' c' Hlt Hk' Hd. induction d as [|d IH]; intros k' c' Hlt Hk' Hd Hc Hc'.
  - replace k' with (k + 1) in * by lia. eapply Hs; eauto; lia.
  - destruct (idx_is_Some col (k' - 1)) as [c0 Hc0]; [lia|].
    assert (c < c0) by (eapply (IH (k' - 1)); eauto; lia).
    assert (c0 < c'); [|lia].
    eapply (Hs (k' - 1)); eauto; try lia.
    by replace (k' - 1 + 1) with k' by lia.
Qed.

Lemma scan_found col j lo hi k :
  sorted_slice col lo hi → 0 ≤ lo → hi ≤ Z.of_nat (length col) →
  lo ≤ k < hi → Vec.idx col k = Some j →
  scan col j hi (Z.to_nat (hi - lo)) lo = Found k.
Proof.
  intros Hs Hlo Hhi Hk Hj.
  pose proof (scan_spec col j hi _ lo eq_refl) as H.
  destruct (scan col j hi (Z.to_nat (hi - lo)) lo) as [k'|k'|].
  - destruct H as (Hk' & Hj' & Hbefore); [lia|done|].
    f_equal. destruct (Z.lt_trichotomy k k') as [Hlt|[->|Hgt]]; [|done|].
    + destruct (Hbefore k) as (c & Hc & ?); [lia|]. rewrite Hj in Hc.
      injection Hc as <-. lia.
    + assert (j < j); [|lia].
      eapply (sorted_slice_lt col lo hi k' k); eauto; lia.
  - destruct H as (Hk' & Hbefore & Hat); [lia|done|].
    destruct (Z.lt_trichotomy k k') as [Hlt|[->|Hgt]].
    + destruct (Hbefore k) as (c & Hc & ?); [lia|]. rewrite Hj in Hc.
      injection Hc as <-. lia.
    + destruct Hat as (c & Hc & ?); [lia|]. rewrite Hj in Hc.
      injection Hc as <-. lia.
    + destruct Hat as (c & Hc & ?); [lia|].
      assert (c < j); [|lia].
      eapply (sorted_slice_lt col lo hi k' k); eauto; lia.
  - destruct H; [lia|done].
Qed.

Lemma scan_absent col j lo hi :
  0 ≤ lo ≤ hi → hi ≤ Z.of_nat (length col) →
  (∀ k, lo ≤ k < hi → Vec.idx col k ≠ Some j) →
  ∃ k, scan col j hi (Z.to_nat (hi - lo)) lo = Stop k ∧
       lo ≤ k ≤ hi ∧
       (∀ k', lo ≤ k' < k → ∃ c, Vec.idx col k' = Some c ∧ c < j) ∧
       (k < hi → ∃ c, Vec.idx col k = Some c ∧ j < c).
Proof.
  intros Hlo Hhi Habs.
  pose proof (scan_spec col j hi _ lo eq_refl Hlo Hhi) as H.
  destruct (scan col j hi (Z.to_nat (hi - lo)) lo) as [k|k|].
  - destruct H as (Hk & Hj & _). by destruct (Habs k Hk).
  - exists k. by split.
  - done.
Qed.

(** ** The invariants of the storage *)

Section InvariantFacts.
Context {T : Type}.
Variable zero : T.
Implicit Types (M : Matrix T).

Lemma inv_nrow M : Inv M → 0 ≤ nrow_ M.
Proof.
  intros HI. pose proof (idx_Some _ _ _ (inv_first M HI)).
  pose proof (inv_length M HI). lia.
Qed.

Lemma inv_rowind M i :
  Inv M → 0 ≤ i ≤ nrow_ M → is_Some (Vec.idx (rowind_ M) i).
Proof.
  intros HI Hi. apply idx_is_Some. pose proof (inv_length M HI). lia.
Qed.

Lemma inv_mono_le M i i' a b :
  Inv M → i ≤ i' →
  Vec.idx (rowind_ M) i = Some a → Vec.idx (rowind_ M) i' = Some b → a ≤ b.
Proof.
  intros HI Hle Ha.
  remember (Z.to_nat (i' - i)) as d eqn:Hd.
  revert i' b Hle Hd. induction d as [|d IH]; intros i' b Hle Hd Hb.
  - replace i' with i in * by lia. rewrite Ha in Hb. injection Hb. lia.
  - pose proof (idx_Some _ _ _ Ha). pose proof (idx_Some _ _ _ Hb).
    destruct (idx_is_Some (rowind_ M) (i' - 1)) as [c Hc]; [lia|].
    assert (a ≤ c) by (apply (IH (i' - 1)); [lia|lia|done]).
    assert (c ≤ b); [|lia].
    apply (inv_mono M HI (i' - 1)); [done|].
    by replace (i' - 1 + 1) with i' by lia.
Qed.

Lemma inv_rowind_bounds M i a :
  Inv M → Vec.idx (rowind_ M) i = Some a → 0 ≤ a ≤ Z.of_nat (length (vec M)).
Proof.
  intros HI Ha. pose proof (idx_Some _ _ _ Ha).
  pose proof (inv_length M HI). split.
  - apply (inv_mono_le M 0 i 0 a HI); [lia|apply HI|done].
  - apply (inv_mono_le M i (nrow_ M) a _ HI); [lia|done|apply HI].
Qed.

(** Row [i] of a matrix that has it. *)
Lemma inv_row M i :
  Inv M → 0 ≤ i < nrow_ M →
  ∃ lo hi, Vec.idx (rowind_ M) i = Some lo ∧
           Vec.idx (rowind_ M) (i + 1) = Some hi ∧
           0 ≤ lo ≤ hi ∧ hi ≤ Z.of_nat (length (col_ M)) ∧
           sorted_slice (col_ M) lo hi.
Proof.
  intros HI Hi.
  destruct (inv_rowind M i HI) as [lo Hlo]; [lia|].
  destruct (inv_rowind M (i + 1) HI) as [hi Hhi]; [lia|].
  exists lo, hi. split; [done|]. split; [done|].
  pose proof (inv_rowind_bounds M i lo HI Hlo).
  pose proof (inv_rowind_bounds M (i + 1) hi HI Hhi).
  pose proof (inv_mono M HI i lo hi Hlo Hhi).
  pose proof (inv_nnz M HI).
  split; [lia|]. split; [lia|]. by apply (inv_sorted M HI i).
Qed.

Lemma slot_row M i j k : Inv M → slot M i j k → 0 ≤ i < nrow_ M.
Proof.
  intros HI (lo & hi & Hlo & Hhi & _).
  pose proof (idx_Some _ _ _ Hlo). pose proof (idx_Some _ _ _ Hhi).
  pose proof (inv_length M HI). lia.
Qed.

Lemma slot_vec M i j k : Inv M → slot M i j k → is_Some (Vec.idx (vec M) k).
Proof.
  intros HI (lo & hi & Hlo & Hhi & Hk & _).
  pose proof (inv_rowind_bounds M i lo HI Hlo).
  pose proof (inv_rowind_bounds M (i + 1) hi HI Hhi).
  apply idx_is_Some. lia.
Qed.

(** A coordinate is stored in one slot at most. *)
Lemma slot_unique M i j k k' : Inv M → slot M i j k → slot M i j k' → k = k'.
Proof.
  intros HI (lo & hi & Hlo & Hhi & Hk & Hj) (lo' & hi' & Hlo' & Hhi' & Hk' & Hj').
  rewrite Hlo in Hlo'. rewrite Hhi in Hhi'.
  injection Hlo' as <-. injection Hhi' as <-.
  pose proof (inv_rowind_bounds M i lo HI Hlo).
  pose proof (inv_rowind_bounds M (i + 1) hi HI Hhi).
  pose proof (inv_nnz M HI).
  pose proof (inv_sorted M HI i lo hi Hlo Hhi) as Hs.
  destruct (Z.lt_trichotomy k k') as [Hlt|[->|Hgt]]; [|done|].
  - assert (j < j); [|lia].
    eapply (sorted_slice_lt _ lo hi k k'); eauto; lia.
  - assert (j < j); [|lia].
    eapply (sorted_slice_lt _ lo hi k' k); eauto; lia.
Qed.

(** *** Read access *)

Lemma getElement_stored M i j k x :
  Inv M → j < ncol_ M → slot M i j k → Vec.idx (vec M) k = Some x →
  getElement zero M i j = Ret x.
Proof.
  intros HI Hj Hslot Hx. pose proof (slot_row M i j k HI Hslot) as Hi.
  destruct Hslot as (lo & hi & Hlo & Hhi & Hk & Hc).
  unfold getElement, size1, size2.
  destruct (Z.geb_spec i (nrow_ M)); [lia|].
  destruct (Z.geb_spec j (ncol_ M)); [lia|]. simpl.
  rewrite (at_Ret _ _ _ Hlo), (at_Ret _ _ _ Hhi). simpl.
  pose proof (inv_rowind_bounds M i lo HI Hlo).
  pose proof (inv_rowind_bounds M (i + 1) hi HI Hhi).
  pose proof (inv_nnz M HI).
  rewrite (scan_found _ j lo hi k); [by apply at_Ret| |lia|lia|done|done].
  by apply (inv_sorted M HI i).
Qed.

Lemma getElement_absent M i j :
  Inv M → 0 ≤ i < nrow_ M → j < ncol_ M → ¬ stored M i j →
  getElement zero M i j = Ret zero.
Proof.
  intros HI Hi Hj Habs.
  destruct (inv_row M i HI Hi) as (lo & hi & Hlo & Hhi & Hb & Hlen & Hs).
  unfold getElement, size1, size2.
  destruct (Z.geb_spec i (nrow_ M)); [lia|].
  destruct (Z.geb_spec j (ncol_ M)); [lia|]. simpl.
  rewrite (at_Ret _ _ _ Hlo), (at_Ret _ _ _ Hhi). simpl.
  destruct (scan_absent (col_ M) j lo hi) as (k & -> & _); [done|done| |done].
  intros k Hk Hc. apply Habs. exists k, lo, hi. done.
Qed.

(** Whether a coordinate is stored is what the scan finds out. *)
Lemma stored_dec M i j :
  Inv M → 0 ≤ i < nrow_ M → stored M i j ∨ ¬ stored M i j.
Proof.
  intros HI Hi.
  destruct (inv_row M i HI Hi) as (lo & hi & Hlo & Hhi & Hbd & Hlen & Hs).
  pose proof (scan_spec (col_ M) j hi _ lo eq_refl) as H.
  destruct (scan (col_ M) j hi (Z.to_nat (hi - lo)) lo) as [k|k|] eqn:E.
  - left. destruct H as (Hk & Hj & _); [lia|done|]. by exists k, lo, hi.
  - right. intros (k' & lo' & hi' & Hlo' & Hhi' & Hk' & Hj').
    rewrite Hlo in Hlo'. rewrite Hhi in Hhi'.
    injection Hlo' as <-. injection Hhi' as <-.
    rewrite (scan_found _ j lo hi k') in E; [done|done|lia|done|done|done].
  - destruct H; [lia|done].
Qed.

(** *** Write access *)

Lemma getElementRef_stored M i j k :
  Inv M → j < ncol_ M → slot M i j k → getElementRef zero i j M = (Ret k, M).
Proof.
  intros HI Hj Hslot. pose proof (slot_row M i j k HI Hslot) as Hi.
  destruct (slot_vec M i j k HI Hslot) as [x Hx].
  destruct Hslot as (lo & hi & Hlo & Hhi & Hk & Hc).
  unfold getElementRef, size1, size2.
  destruct (Z.geb_spec i (nrow_ M)); [lia|].
  destruct (Z.geb_spec j (ncol_ M)); [lia|]. simpl.
  rewrite Hlo, Hhi.
  pose proof (inv_rowind_bounds M i lo HI Hlo).
  pose proof (inv_rowind_bounds M (i + 1) hi HI Hhi).
  pose proof (inv_nnz M HI).
  rewrite (scan_found _ j lo hi k); [|by apply (inv_sorted M HI i)|lia|lia|done|done].
  by rewrite (at_Ret _ _ _ Hx).
Qed.

(** The loop that moves the starts of the rows after [i]. *)
Lemma bump_rows (r0 : list Z) i n :
  0 ≤ i < n → Z.of_nat (length r0) = n + 1 →
  ∃ r, for_range (i + 1) (n + 1) bump r0 = Some r ∧
       length r = length r0 ∧
       ∀ x, Vec.idx r x =
              if i <? x then (λ a, a + 1) <$> Vec.idx r0 x else Vec.idx r0 x.
Proof.
  intros Hi Hlen.
  destruct (for_range_inv
    (λ row r, length r = length r0 ∧
       ∀ x, Vec.idx r x =
              if (i <? x) && (x <? row)
              then (λ a, a + 1) <$> Vec.idx r0 x else Vec.idx r0 x)
    (i + 1) (n + 1) bump r0) as (r & Hr & Hlen' & Hidx).
  - lia.
  - split; [done|]. intros x. by zbool; try lia.
  - intros row t Hrow [Ht Hidx]. unfold bump.
    destruct (idx_is_Some r0 row) as [a Ha]; [lia|].
    rewrite Hidx. destruct (Z.ltb_spec i row); [|lia].
    destruct (Z.ltb_spec row row); [lia|]. simpl. rewrite Ha.
    destruct (store_Some t row (a + 1)) as [t' Ht']; [lia|].
    exists t'. split; [done|]. split.
    + by rewrite (store_length _ _ _ _ Ht').
    + intros x. rewrite (idx_store _ _ _ _ x Ht'), Hidx.
      destruct (Z.eqb_spec x row) as [->|].
      * destruct (Z.ltb_spec i row); [|lia].
        destruct (Z.ltb_spec row (row + 1)); [|lia]. simpl. by rewrite Ha.
      * by zbool; try lia.
  - exists r. split; [done|]. split; [done|]. intros x. rewrite Hidx.
    destruct (Z.ltb_spec i x); [|done].
    destruct (Z.ltb_spec x (n + 1)); [done|]. simpl.
    rewrite idx_None by lia. done.
Qed.

Lemma getElementRef_absent M i j :
  Inv M → 0 ≤ i < nrow_ M → j < ncol_ M → ¬ stored M i j →
  ∃ k M', getElementRef zero i j M = (Ret k, M') ∧
          Inv M' ∧ nrow_ M' = nrow_ M ∧ ncol_ M' = ncol_ M ∧
          slot M' i j k ∧
          Vec.insert (vec M) k zero = Some (vec M') ∧
          Vec.insert (col_ M) k j = Some (col_ M').
Proof.
  intros HI Hi Hj Habs.
  destruct (inv_row M i HI Hi) as (lo & hi & Hlo & Hhi & Hbd & Hlen & Hs).
  pose proof (inv_nnz M HI) as Hnnz.
  pose proof (inv_length M HI) as Hrl.
  destruct (scan_absent (col_ M) j lo hi) as (k & Hscan & Hk & Hbefore & Hafter);
    [done|done| |].
  { intros k Hk Hc. apply Habs. exists k, lo, hi. done. }
  destruct (insert_Some (vec M) k zero) as [v Hv]; [lia|].
  destruct (insert_Some (col_ M) k j) as [c Hc]; [lia|].
  destruct (bump_rows (rowind_ M) i (nrow_ M) Hi Hrl) as (r & Hr & Hrlen & Hridx).
  pose proof (insert_length _ _ _ _ Hv) as Hvlen.
  pose proof (insert_length _ _ _ _ Hc) as Hclen.
  exists k, (mkMatrix v c r (nrow_ M) (ncol_ M)).
  assert (Hri : Vec.idx r i = Some lo).
  { rewrite Hridx. by destruct (Z.ltb_spec i i); [lia|]. }
  assert (Hri1 : Vec.idx r (i + 1) = Some (hi + 1)).
  { rewrite Hridx. destruct (Z.ltb_spec i (i + 1)); [|lia]. by rewrite Hhi. }
  assert (Hck : Vec.idx c k = Some j).
  { rewrite (idx_insert _ _ _ _ k Hc).
    destruct (Z.ltb_spec k k); [lia|]. by rewrite Z.eqb_refl. }
  split; [|split; [|split; [done|split; [done|split; [|done]]]]].
  - unfold getElementRef, size1, size2.
    destruct (Z.geb_spec i (nrow_ M)); [lia|].
    destruct (Z.geb_spec j (ncol_ M)); [lia|]. simpl.
    rewrite Hlo, Hhi, Hscan, Hv. simpl. rewrite Hc. simpl.
    unfold size1. simpl. rewrite Hr. simpl.
    rewrite (at_Ret v k zero); [done|].
    rewrite (idx_insert _ _ _ _ k Hv).
    destruct (Z.ltb_spec k k); [lia|]. by rewrite Z.eqb_refl.
  - constructor; simpl.
    + lia.
    + rewrite Hridx. destruct (Z.ltb_spec i 0); [lia|]. apply HI.
    + rewrite Hridx. destruct (Z.ltb_spec i (nrow_ M)); [|lia].
      rewrite (inv_last M HI). simpl. f_equal. lia.
    + lia.
    + intros x a b. rewrite !Hridx. intros Ha Hb.
      destruct (Z.ltb_spec i x), (Z.ltb_spec i (x + 1)); try lia.
      * destruct (Vec.idx (rowind_ M) x) as [a0|] eqn:Ea; [|done].
        destruct (Vec.idx (rowind_ M) (x + 1)) as [b0|] eqn:Eb; [|done].
        simpl in *. pose proof (inv_mono M HI x a0 b0 Ea Eb).
        injection Ha as <-. injection Hb as <-. lia.
      * destruct (Vec.idx (rowind_ M) (x + 1)) as [b0|] eqn:Eb; [|done].
        simpl in *. pose proof (inv_mono M HI x a b0 Ha Eb).
        injection Hb as <-. lia.
      * apply (inv_mono M HI x a b Ha Hb).
    + intros x a b. rewrite !Hridx. intros Ha Hb k0 c1 c2 Hk0 Hk0' Hc1 Hc2.
      rewrite (idx_insert _ _ _ _ k0 Hc) in Hc1.
      rewrite (idx_insert _ _ _ _ (k0 + 1) Hc) in Hc2.
      replace (k0 + 1 - 1) with k0 in Hc2 by lia.
      destruct (Z.ltb_spec i x), (Z.ltb_spec i (x + 1)); try lia.
      * (* a row after [i] *)
        destruct (Vec.idx (rowind_ M) x) as [a0|] eqn:Ea; [|done].
        destruct (Vec.idx (rowind_ M) (x + 1)) as [b0|] eqn:Eb; [|done].
        simpl in *. injection Ha as <-. injection Hb as <-.
        assert (hi ≤ a0) by (apply (inv_mono_le M (i + 1) x hi a0 HI); [lia|done|done]).
        destruct (Z.ltb_spec k0 k); [lia|].
        destruct (Z.eqb_spec k0 k); [lia|].
        destruct (Z.ltb_spec (k0 + 1) k); [lia|].
        destruct (Z.eqb_spec (k0 + 1) k); [lia|].
        apply (inv_sorted M HI x a0 b0 Ea Eb (k0 - 1)); [lia|lia|done|].
        by replace (k0 - 1 + 1) with k0 by lia.
      * (* row [i] *)
        assert (x = i) as -> by lia.
        destruct (Vec.idx (rowind_ M) (i + 1)) as [b0|] eqn:Eb; [|done].
        simpl in *. rewrite Hlo in Ha.
        injection Ha as <-. injection Hb as <-. injection Hhi as <-.
        destruct (Z.ltb_spec (k0 + 1) k).
        { destruct (Z.ltb_spec k0 k); [|lia].
          apply (Hs k0); [lia|lia|done|done]. }
        destruct (Z.eqb_spec (k0 + 1) k).
        { destruct (Z.ltb_spec k0 k); [|lia].
          destruct (Hbefore k0) as (c0 & Hc0 & ?); [lia|].
          rewrite Hc0 in Hc1. injection Hc1 as <-. injection Hc2 as <-. lia. }
        destruct (Z.ltb_spec k0 k); [lia|].
        destruct (Z.eqb_spec k0 k) as [->|].
        { destruct Hafter as (c0 & Hc0 & ?); [lia|].
          rewrite Hc0 in Hc2. injection Hc1 as <-. injection Hc2 as <-. lia. }
        apply (Hs (k0 - 1)); [lia|lia|done|].
        by replace (k0 - 1 + 1) with k0 by lia.
      * (* a row before [i] *)
        assert (b ≤ lo) by (apply (inv_mono_le M (x + 1) i b lo HI); [lia|done|done]).
        destruct (Z.ltb_spec k0 k); [|lia].
        destruct (Z.ltb_spec (k0 + 1) k); [|lia].
        apply (inv_sorted M HI x a b Ha Hb k0); [lia|lia|done|done].
  - exists lo, (hi + 1). simpl. split; [done|]. split; [done|]. split; [lia|done].
Qed.

(** [getElementRef] at a coordinate of the matrix returns the slot of the
    coordinate, in a matrix that keeps the invariants and the shape. *)
Lemma getElementRef_ok M i j :
  Inv M → 0 ≤ i < nrow_ M → j < ncol_ M →
  ∃ k M', getElementRef zero i j M = (Ret k, M') ∧
          Inv M' ∧ nrow_ M' = nrow_ M ∧ ncol_ M' = ncol_ M ∧ slot M' i j k.
Proof.
  intros HI Hi Hj.
  destruct (stored_dec M i j HI Hi) as [[k Hk]|Habs].
  - exists k, M. by rewrite (getElementRef_stored M i j k).
  - destruct (getElementRef_absent M i j HI Hi Hj Habs)
      as (k & M' & ? & ? & ? & ? & ? & _).
    by exists k, M'.
Qed.

Lemma assign_ok M k v :
  0 ≤ k < Z.of_nat (length (vec M)) →
  ∃ d, assign v k M = (Ret (), set_vec d M) ∧ Vec.store (vec M) k v = Some d.
Proof.
  intros Hk. destruct (store_Some (vec M) k v Hk) as [d Hd].
  exists d. unfold assign. by rewrite Hd.
Qed.

(** Writing through a reference changes no part of the pattern. *)
Lemma Inv_set_vec M d : Inv M → length d = length (vec M) → Inv (set_vec d M).
Proof.
  intros HI Hd. constructor; simpl; try apply HI.
  - rewrite Hd. apply HI.
  - rewrite Hd. apply HI.
Qed.

Lemma slot_set_vec M d i j k : slot M i j k → slot (set_vec d M) i j k.
Proof. done. Qed.

(** *** (Re-)initialisation *)

Lemma makeEmpty_ok n m M0 :
  0 ≤ n < int_max →
  makeEmpty n m M0 = (Ret (), mkMatrix [] [] (replicate (Z.to_nat (n + 1)) 0) n m).
Proof.
  intros Hn. unfold makeEmpty, Vec.resize. simpl.
  rewrite (wrap_id (n + 1)) by (unfold int_min, int_max in *; lia).
  destruct (Z.ltb_spec (n + 1) 0); [lia|].
  by rewrite resize_nil.
Qed.

Lemma idx_replicate {A} (x y : A) (n : nat) k :
  Vec.idx (replicate n x) k = Some y → y = x.
Proof.
  unfold Vec.idx. destruct (k <? 0); [done|].
  by intros [-> _]%lookup_replicate.
Qed.

Lemma idx_replicate_Some {A} (x : A) (n : nat) k :
  0 ≤ k < Z.of_nat n → Vec.idx (replicate n x) k = Some x.
Proof.
  intros Hk. unfold Vec.idx. destruct (Z.ltb_spec k 0); [lia|].
  apply lookup_replicate_2. lia.
Qed.

Lemma Inv_empty n m :
  0 ≤ n → Inv (T := T) (mkMatrix [] [] (replicate (Z.to_nat (n + 1)) 0) n m).
Proof.
  intros Hn. constructor; simpl.
  - rewrite length_replicate. lia.
  - apply idx_replicate_Some. lia.
  - apply idx_replicate_Some. lia.
  - done.
  - intros i a b ->%idx_replicate ->%idx_replicate. lia.
  - intros i a b ->%idx_replicate ->%idx_replicate k c c'. lia.
Qed.

Lemma dense_col_loop (n m i : Z) (c : list Z) :
  0 ≤ i < n → 0 ≤ m → Z.of_nat (length c) = n * m →
  (∀ x j, 0 ≤ x < i → 0 ≤ j < m → Vec.idx c (x * m + j) = Some j) →
  ∃ c', for_range 0 m dense_col (i * m, c) = Some ((i + 1) * m, c') ∧
        Z.of_nat (length c') = n * m ∧
        (∀ x j, 0 ≤ x < i + 1 → 0 ≤ j < m → Vec.idx c' (x * m + j) = Some j).
Proof.
  intros Hi Hm Hlen Hdone.
  destruct (for_range_inv
    (λ j (s : Z * list Z),
       s.1 = i * m + j ∧ Z.of_nat (length s.2) = n * m ∧
       (∀ x j', 0 ≤ x < i → 0 ≤ j' < m → Vec.idx s.2 (x * m + j') = Some j') ∧
       (∀ j', 0 ≤ j' < j → Vec.idx s.2 (i * m + j') = Some j'))
    0 m dense_col (i * m, c)) as ([el c'] & Hrun & Hel & Hlen' & Hold & Hnew).
  - done.
  - simpl. split; [lia|]. split; [done|]. split; [done|]. intros; lia.
  - intros j [el t] Hj (Hel & Ht & Hold & Hnew). simpl in *. subst el.
    destruct (store_Some t (i * m + j) j) as [t' Ht']; [nia|].
    rewrite Ht'. simpl. eexists. split; [done|]. simpl.
    split; [lia|]. split; [by rewrite (store_length _ _ _ _ Ht')|]. split.
    + intros x j' Hx Hj'. rewrite (idx_store _ _ _ _ _ Ht').
      destruct (Z.eqb_spec (x * m + j') (i * m + j)); [nia|]. by apply Hold.
    + intros j' Hj'. rewrite (idx_store _ _ _ _ _ Ht').
      destruct (Z.eqb_spec (i * m + j') (i * m + j)) as [E|E].
      * f_equal. lia.
      * apply Hnew. lia.
  - simpl in *. exists c'. subst el.
    replace ((i + 1) * m) with (i * m + m) by lia.
    split; [done|]. split; [done|].
    intros x j Hx Hj. destruct (Z.eq_dec x i) as [->|].
    + by apply Hnew.
    + apply Hold; [lia|done].
Qed.

Lemma dense_row_loop (n m : Z) (c r : list Z) :
  0 ≤ n → 0 ≤ m →
  Z.of_nat (length c) = n * m → Z.of_nat (length r) = n + 1 →
  ∃ c' r', for_range 0 n (dense_row m) (0, c, r) = Some (n * m, c', r') ∧
           Z.of_nat (length c') = n * m ∧ Z.of_nat (length r') = n + 1 ∧
           (∀ x, 0 ≤ x < n → Vec.idx r' x = Some (x * m)) ∧
           (∀ x j, 0 ≤ x < n → 0 ≤ j < m → Vec.idx c' (x * m + j) = Some j).
Proof.
  intros Hn Hm Hc Hr.
  destruct (for_range_inv
    (λ i (s : Z * list Z * list Z),
       s.1.1 = i * m ∧
       Z.of_nat (length s.1.2) = n * m ∧ Z.of_nat (length s.2) = n + 1 ∧
       (∀ x, 0 ≤ x < i → Vec.idx s.2 x = Some (x * m)) ∧
       (∀ x j, 0 ≤ x < i → 0 ≤ j < m → Vec.idx s.1.2 (x * m + j) = Some j))
    0 n (dense_row m) (0, c, r)) as ([[el c'] r'] & Hrun & H).
  - done.
  - simpl. split; [lia|]. split; [done|]. split; [done|]. split; intros; lia.
  - intros i [[el t] u] Hi (Hel & Ht & Hu & Hrows & Hcols). simpl in *. subst el.
    destruct (store_Some u i (i * m)) as [u' Hu']; [lia|].
    destruct (dense_col_loop n m i t) as (t' & Hrun & Ht' & Hcols'); [lia|done|done|done|].
    rewrite Hu'. simpl. rewrite Hrun. simpl.
    eexists. split; [done|]. simpl.
    split; [done|]. split; [done|].
    split; [by rewrite (store_length _ _ _ _ Hu')|]. split; [|done].
    intros x Hx. rewrite (idx_store _ _ _ _ _ Hu').
    destruct (Z.eqb_spec x i) as [->|]; [done|]. apply Hrows. lia.
  - simpl in H. destruct H as (-> & ? & ? & ? & ?). by exists c', r'.
Qed.

Lemma idx_store_back (r : list Z) x r' k :
  Vec.store_back r x = Some r' →
  Vec.idx r' k = if k =? Z.of_nat (length r) - 1 then Some x else Vec.idx r k.
Proof.
  unfold Vec.store_back. destruct r as [|y r]; [done|]. intros [= <-].
  apply (idx_store (y :: r) (Z.of_nat (length (y :: r)) - 1)).
  unfold Vec.store.
  destruct (idx_is_Some (y :: r) (Z.of_nat (length (y :: r)) - 1)) as [z ->].
  { simpl. lia. }
  do 2 f_equal. simpl. lia.
Qed.

Lemma makeDense_ok n m val M0 :
  shape_fits n m →
  ∃ M, makeDense n m val M0 = (Ret (), M) ∧
       dense_pattern M n m ∧ vec M = replicate (Z.to_nat (n * m)) val.
Proof.
  intros Hfits. destruct (shape_fits_wrap n m Hfits) as [Hw1 Hwm].
  destruct Hfits as ([Hn _] & [Hm _] & _).
  unfold makeDense, Vec.resize, size1, size2. simpl. rewrite Hw1, Hwm.
  destruct (Z.ltb_spec (n * m) 0); [nia|].
  destruct (Z.ltb_spec (n + 1) 0); [lia|]. simpl.
  destruct (dense_row_loop n m
              (list.resize (Z.to_nat (n * m)) 0 (col_ M0))
              (list.resize (Z.to_nat (n + 1)) 0 (rowind_ M0)))
    as (c & r & Hrun & Hc & Hr & Hrows & Hcols);
    [done|done|rewrite length_resize; lia|rewrite length_resize; lia|].
  rewrite Hrun. simpl.
  destruct (Vec.store_back r (n * m)) as [r'|] eqn:Hback.
  2:{ destruct r; [simpl in Hr; lia|done]. }
  eexists. split; [reflexivity|]. split; [|simpl; by rewrite resize_nil].
  assert (length r' = length r) as Hr'.
  { unfold Vec.store_back in Hback. destruct r; [done|].
    injection Hback as <-. apply length_insert. }
  constructor; simpl; try done.
  - rewrite length_resize. lia.
  - lia.
  - intros x Hx. rewrite (idx_store_back _ _ _ _ Hback).
    destruct (Z.eqb_spec x (Z.of_nat (length r) - 1)) as [->|].
    + f_equal. lia.
    + apply Hrows. lia.
Qed.

Lemma dense_slot M n m i j :
  dense_pattern M n m → 0 ≤ i < n → 0 ≤ j < m → slot M i j (i * m + j).
Proof.
  intros HD Hi Hj. exists (i * m), ((i + 1) * m).
  split; [apply (dp_rows M n m HD); lia|].
  split; [apply (dp_rows M n m HD); lia|].
  split; [lia|]. by apply (dp_cols M n m HD).
Qed.

Lemma Inv_dense M n m : dense_pattern M n m → 0 ≤ n → 0 ≤ m → Inv M.
Proof.
  intros HD Hn Hm. destruct HD as [Hnr Hnc Hv Hc Hr Hrows Hcols].
  assert (Hrow : ∀ x a, Vec.idx (rowind_ M) x = Some a → 0 ≤ x ≤ n ∧ a = x * m).
  { intros x a Ha. pose proof (idx_Some _ _ _ Ha).
    assert (0 ≤ x ≤ n) as Hx by lia. split; [done|].
    rewrite (Hrows x Hx) in Ha. by injection Ha. }
  constructor.
  - lia.
  - rewrite Hrows by lia. f_equal.
  - rewrite Hnr, Hrows by lia. f_equal. lia.
  - lia.
  - intros i a b [? ->]%Hrow [? ->]%Hrow. nia.
  - intros i a b [? ->]%Hrow [? ->]%Hrow k c c' Hk Hk' Hck Hck'.
    pose proof (Hcols i (k - i * m) ltac:(lia) ltac:(lia)) as E.
    pose proof (Hcols i (k + 1 - i * m) ltac:(lia) ltac:(lia)) as E'.
    replace (i * m + (k - i * m)) with k in E by lia.
    replace (i * m + (k + 1 - i * m)) with (k + 1) in E' by lia.
    rewrite E in Hck. rewrite E' in Hck'.
    injection Hck as <-. injection Hck' as <-. lia.
Qed.

(** *** Access at a coordinate of the matrix *)

Lemma getElement_ok M i j :
  Inv M → 0 ≤ i < nrow_ M → j < ncol_ M → ∃ x, getElement zero M i j = Ret x.
Proof.
  intros HI Hi Hj. destruct (stored_dec M i j HI Hi) as [[k Hk]|Habs].
  - destruct (slot_vec M i j k HI Hk) as [x Hx].
    exists x. by apply (getElement_stored M i j k).
  - exists zero. by apply getElement_absent.
Qed.

(** [getElementRef(i, j) = v] stores [v] in the slot of [(i, j)]. *)
Lemma setElement_ok M i j v :
  Inv M → 0 ≤ i < nrow_ M → j < ncol_ M →
  ∃ k M' M'', getElementRef zero i j M = (Ret k, M') ∧
              assign v k M' = (Ret (), M'') ∧
              setElement zero i j v M = (Ret (), M'') ∧
              Inv M'' ∧ nrow_ M'' = nrow_ M ∧ ncol_ M'' = ncol_ M ∧
              slot M'' i j k ∧ Vec.idx (vec M'') k = Some v.
Proof.
  intros HI Hi Hj.
  destruct (getElementRef_ok M i j HI Hi Hj) as (k & M' & Href & HI' & Hn & Hm & Hslot).
  destruct (slot_vec M' i j k HI' Hslot) as [x Hx].
  pose proof (idx_Some _ _ _ Hx) as Hk.
  destruct (assign_ok M' k v Hk) as (d & Hassign & Hd).
  exists k, M', (set_vec d M').
  split; [done|]. split; [done|].
  split; [unfold setElement, st_bind; by rewrite Href|].
  split; [apply Inv_set_vec; [done|by apply (store_length _ _ _ _ Hd)]|].
  split; [done|]. split; [done|]. split; [done|].
  simpl. rewrite (idx_store _ _ _ _ k Hd). by rewrite Z.eqb_refl.
Qed.

(** *** Invariant 5 *)

Lemma getElementRef_cols M i j k M' :
  Inv M → 0 ≤ i < nrow_ M → 0 ≤ j < ncol_ M →
  getElementRef zero i j M = (Ret k, M') →
  cols_in_range M → cols_in_range M'.
Proof.
  intros HI Hi Hj Href Hcols.
  destruct (stored_dec M i j HI Hi) as [[k0 Hk0]|Habs].
  - rewrite (getElementRef_stored M i j k0) in Href; [|done|lia|done].
    by injection Href as _ <-.
  - destruct (getElementRef_absent M i j HI Hi) as
      (k1 & M1 & Href1 & _ & _ & Hm & _ & _ & Hc); [lia|done|].
    rewrite Href1 in Href. injection Href as _ <-.
    intros k' c. rewrite (idx_insert _ _ _ _ k' Hc), Hm.
    destruct (k' <? k1); [apply Hcols|].
    destruct (k' =? k1); [|apply Hcols]. intros [= <-]. lia.
Qed.

Lemma dense_cols M n m :
  dense_pattern M n m → 0 ≤ n → 0 ≤ m → cols_in_range M.
Proof.
  intros HD Hn Hm k c Hc. pose proof (idx_Some _ _ _ Hc) as Hk.
  rewrite (dp_col M n m HD) in Hk. rewrite (dp_ncol M n m HD).
  assert (0 < m) by nia.
  pose proof (Z.div_mod k m ltac:(lia)) as Hdm.
  pose proof (Z.mod_pos_bound k m ltac:(lia)) as Hmod.
  assert (0 ≤ k `div` m < n) as Hdiv.
  { split; [apply Z.div_pos; lia|apply Z.div_lt_upper_bound; nia]. }
  pose proof (dp_cols M n m HD (k `div` m) (k `mod` m) Hdiv Hmod) as Hj.
  replace (k `div` m * m + k `mod` m) with k in Hj by lia.
  rewrite Hj in Hc. injection Hc as <-. lia.
Qed.

Lemma check_inv_sound M : check_inv M = true → Inv M.
Proof.
  unfold check_inv. rewrite !andb_true_iff.
  intros ((((Hlen & Hfirst) & Hlast) & Hnnz) & Hrows).
  apply Z.eqb_eq in Hlen. apply Z.eqb_eq in Hnnz.
  destruct (Vec.idx (rowind_ M) 0) as [a0|] eqn:E0; [|done].
  apply Z.eqb_eq in Hfirst as ->.
  destruct (Vec.idx (rowind_ M) (nrow_ M)) as [an|] eqn:En; [|done].
  apply Z.eqb_eq in Hlast as ->.
  rewrite forallb_forall in Hrows.
  assert (Hrow : ∀ i a b,
    Vec.idx (rowind_ M) i = Some a → Vec.idx (rowind_ M) (i + 1) = Some b →
    a ≤ b ∧ check_slice (col_ M) a b = true).
  { intros i a b Ha Hb.
    pose proof (idx_Some _ _ _ Ha). pose proof (idx_Some _ _ _ Hb).
    specialize (Hrows i). unfold check_row in Hrows. rewrite Ha, Hb in Hrows.
    rewrite andb_true_iff, Z.leb_le in Hrows. apply Hrows.
    apply list_elem_of_In, elem_of_seqZ. lia. }
  constructor; try done.
  - lia.
  - intros i a b Ha Hb. by apply (Hrow i).
  - intros i a b Ha Hb k c c' Hk Hk' Hc Hc'.
    destruct (Hrow i a b Ha Hb) as [_ Hs].
    unfold check_slice in Hs. rewrite forallb_forall in Hs.
    specialize (Hs k). rewrite Hc, Hc' in Hs. apply Z.ltb_lt, Hs.
    apply list_elem_of_In, elem_of_seqZ. lia.
Qed.

Lemma check_cols_sound M : check_cols M = true → cols_in_range M.
Proof.
  unfold check_cols. rewrite forallb_forall. intros H k c Hc.
  unfold Vec.idx in Hc. destruct (k <? 0); [done|].
  apply list_elem_of_lookup_2, list_elem_of_In, H in Hc. lia.
Qed.

End InvariantFacts.

(** ** The bounds test *)

Section Bounds.
Context {T : Type}.
Variable zero : T.
Implicit Types (M : Matrix T).

Lemma getElement_out_of_bounds M i j :
  nrow_ M ≤ i ∨ ncol_ M ≤ j →
  getElement zero M i j = Throw (CasadiException getElement_msg).
Proof.
  intros H. unfold getElement, size1, size2.
  destruct (Z.geb_spec i (nrow_ M)); [done|].
  destruct (Z.geb_spec j (ncol_ M)); [done|lia].
Qed.

(** A write access that the bounds test rejects leaves the matrix as it
    was. *)
Lemma getElementRef_out_of_bounds M i j :
  nrow_ M ≤ i ∨ ncol_ M ≤ j →
  getElementRef zero i j M = (Throw (CasadiException getElementRef_msg), M).
Proof.
  intros H. unfold getElementRef, size1, size2.
  destruct (Z.geb_spec i (nrow_ M)); [done|].
  destruct (Z.geb_spec j (ncol_ M)); [done|lia].
Qed.

(** The bounds test is the only source of a [CasadiException] in an
    access. *)
Lemma getElement_IndexError M i j e :
  getElement zero M i j = Throw e → IndexError e → nrow_ M ≤ i ∨ ncol_ M ≤ j.
Proof.
  unfold getElement, size1, size2.
  destruct (Z.geb_spec i (nrow_ M)); [lia|].
  destruct (Z.geb_spec j (ncol_ M)); [lia|]. simpl.
  unfold Vec.at_.
  destruct (Vec.idx (rowind_ M) i); simpl; [|by intros [= <-] [|]].
  destruct (Vec.idx (rowind_ M) (i + 1)) as [hi|]; simpl; [|by intros [= <-] [|]].
  destruct (scan _ _ _ _ _); [|done|done].
  destruct (Vec.idx (vec M) ind); [done|by intros [= <-] [|]].
Qed.
End Bounds.

(** ** Flat sequences *)

Section Copy.
Context {T A : Type}.
Variable conv : A → T.

Lemma copy_in_ok (x : list A) (M : Matrix T) n m :
  dense_pattern M n m → Z.of_nat (length x) = n * m →
  copy_in conv x M = (Ret (), set_vec (conv <$> x) M) ∧
  dense_pattern (set_vec (conv <$> x) M) n m.
Proof.
  intros HD Hx. pose proof (dp_vec M n m HD) as Hv. split.
  - unfold copy_in, Vec.copy. rewrite length_fmap.
    destruct (Nat.leb_spec (length x) (length (vec M))); [|lia].
    rewrite drop_ge by lia. by rewrite app_nil_r.
  - destruct HD. constructor; simpl; try done.
    rewrite length_fmap. lia.
Qed.
End Copy.

(** * The properties of the specification *)

(** C2. Round trip: on a matrix that satisfies the invariants, for every
    coordinate [(i, j)] of the matrix, [getElementRef(i, j)] returns a
    reference, the assignment of [v] through it succeeds, and
    [getElement(i, j)] then returns [v]. *)
Theorem get_after_set {T : Type} (zero : T) (M : Matrix T) (i j : Z) (v : T) :
  Inv M → 0 ≤ i < nrow_ M → 0 ≤ j < ncol_ M →
  ∃ k M' M'', getElementRef zero i j M = (Ret k, M') ∧
              assign v k M' = (Ret (), M'') ∧
              getElement zero M'' i j = Ret v.
Proof.
  intros HI Hi Hj.
  destruct (setElement_ok zero M i j v HI Hi)
    as (k & M' & M'' & Href & Hassign & _ & HI'' & _ & Hm & Hslot & Hv); [lia|].
  exists k, M', M''. split; [done|]. split; [done|].
  apply (getElement_stored zero M'' i j k); [done|lia|done|done].
Qed.

Lemma get_after_set_witness :
  ∃ k M' M'',
    getElementRef 0 1 2 (mkMatrix [] [] [0; 0; 0; 0] 3 3) = (Ret k, M') ∧
    assign 7 k M' = (Ret (), M'') ∧
    getElement 0 M'' 1 2 = Ret 7.
Proof.
  apply (get_after_set 0 (mkMatrix [] [] [0; 0; 0; 0] 3 3) 1 2 7).
  - apply check_inv_sound. reflexivity.
  - simpl. lia.
  - simpl. lia.
Defined.

(** C4. Idempotence: on a matrix that satisfies the invariants, a second
    [getElementRef(i, j)] at the same coordinate of the matrix returns the
    same slot and leaves the whole matrix, so [vec], [col_] and [rowind_],
    as the first call left it; it does so as well after an assignment
    through the first reference. *)
Theorem getElementRef_twice {T : Type} (zero : T) (M : Matrix T) (i j : Z) :
  Inv M → 0 ≤ i < nrow_ M → 0 ≤ j < ncol_ M →
  ∃ k M', getElementRef zero i j M = (Ret k, M') ∧
          getElementRef zero i j M' = (Ret k, M') ∧
          ∀ v M'', assign v k M' = (Ret (), M'') →
                   getElementRef zero i j M'' = (Ret k, M'').
Proof.
  intros HI Hi Hj.
  destruct (getElementRef_ok zero M i j HI Hi)
    as (k & M' & Href & HI' & Hn & Hm & Hslot); [lia|].
  exists k, M'. split; [done|].
  split; [apply getElementRef_stored; [done|lia|done]|].
  intros v M''. unfold assign.
  destruct (Vec.store (vec M') k v) as [d|] eqn:Hd; [|done].
  intros [= <-]. apply getElementRef_stored.
  - apply Inv_set_vec; [done|]. by apply (store_length _ _ _ _ Hd).
  - simpl. lia.
  - by apply slot_set_vec.
Qed.

Lemma getElementRef_twice_witness :
  ∃ k M',
    getElementRef 0 1 2 (mkMatrix [] [] [0; 0; 0; 0] 3 3) = (Ret k, M') ∧
    getElementRef 0 1 2 M' = (Ret k, M') ∧
    ∀ v M'', assign v k M' = (Ret (), M'') →
             getElementRef 0 1 2 M'' = (Ret k, M'').
Proof.
  apply (getElementRef_twice 0 (mkMatrix [] [] [0; 0; 0; 0] 3 3) 1 2).
  - apply check_inv_sound. reflexivity.
  - simpl. lia.
  - simpl. lia.
Defined.

(** C5. Read access: on a matrix that satisfies the invariants, for every
    coordinate [(i, j)] of the matrix, [getElement(i, j)] returns zero when
    the coordinate is not in the sparsity pattern and the stored value when
    it is, and leaves the matrix as it was. *)
Theorem getElement_reads {T : Type} (zero : T) (M : Matrix T) (i j : Z) :
  Inv M → 0 ≤ i < nrow_ M → 0 ≤ j < ncol_ M →
  (¬ stored M i j →
     st_const (λ M, getElement zero M i j) M = (Ret zero, M)) ∧
  (stored M i j →
     ∃ k x, slot M i j k ∧ Vec.idx (vec M) k = Some x ∧
            st_const (λ M, getElement zero M i j) M = (Ret x, M)).
Proof.
  intros HI Hi Hj. unfold st_const. split.
  - intros Habs. f_equal. apply getElement_absent; [done|done|lia|done].
  - intros [k Hslot]. destruct (slot_vec M i j k HI Hslot) as [x Hx].
    exists k, x. split; [done|]. split; [done|]. f_equal.
    apply (getElement_stored zero M i j k); [done|lia|done|done].
Qed.

Lemma getElement_reads_witness :
  let M := mkMatrix [7] [2] [0; 0; 1; 1] 3 3 in
  (¬ stored M 1 2 → st_const (λ M, getElement 0 M 1 2) M = (Ret 0, M)) ∧
  (stored M 1 2 →
     ∃ k x, slot M 1 2 k ∧ Vec.idx (vec M) k = Some x ∧
            st_const (λ M, getElement 0 M 1 2) M = (Ret x, M)).
Proof.
  apply (getElement_reads 0 (mkMatrix [7] [2] [0; 0; 1; 1] 3 3) 1 2).
  - apply check_inv_sound. reflexivity.
  - simpl. lia.
  - simpl. lia.
Defined.

(** C6. Dense fill: for a shape [(n, m)] that fits (no negative side, and
    [n + 1] and [n * m] are [int]s), [Matrix(n, m, val)] constructs a matrix
    of that shape with [numel = n * m], in which [getElement(i, j)] returns
    [val] at every coordinate, and in which every row [i] holds [m] slots,
    with the columns [0, ..., m - 1] in this order. *)
Theorem dense_fill {T : Type} (zero : T) (n m : Z) (val : T) :
  shape_fits n m →
  ∃ M, Matrix_dense n m val = Ret M ∧
       size1 M = n ∧ size2 M = m ∧ numel M = n * m ∧
       (∀ i j, 0 ≤ i < n → 0 ≤ j < m → getElement zero M i j = Ret val) ∧
       (∀ i, 0 ≤ i < n →
          ∃ a b, Vec.idx (rowind_ M) i = Some a ∧
                 Vec.idx (rowind_ M) (i + 1) = Some b ∧
                 b - a = m ∧
                 ∀ j, 0 ≤ j < m → Vec.idx (col_ M) (a + j) = Some j).
Proof.
  intros Hfits. destruct (shape_fits_wrap n m Hfits) as [_ Hwm].
  destruct (makeDense_ok n m val raw Hfits) as (M & Hrun & HD & Hvec).
  destruct Hfits as ([Hn _] & [Hm _] & _).
  exists M. unfold Matrix_dense, construct. rewrite Hrun.
  pose proof (dp_nrow M n m HD) as Hnr. pose proof (dp_ncol M n m HD) as Hnc.
  unfold numel, size1, size2. rewrite Hnr, Hnc.
  split; [done|]. split; [done|]. split; [done|]. split; [done|]. split.
  - intros i j Hi Hj.
    apply (getElement_stored zero M i j (i * m + j)).
    + by apply (Inv_dense M n m).
    + lia.
    + by apply (dense_slot M n m).
    + rewrite Hvec. apply idx_replicate_Some. nia.
  - intros i Hi. exists (i * m), ((i + 1) * m).
    split; [apply (dp_rows M n m HD); lia|].
    split; [apply (dp_rows M n m HD); lia|].
    split; [lia|]. intros j Hj. by apply (dp_cols M n m HD).
Qed.

Lemma dense_fill_witness :
  ∃ M, Matrix_dense 2 3 5 = Ret M ∧
       size1 M = 2 ∧ size2 M = 3 ∧ numel M = 2 * 3 ∧
       (∀ i j, 0 ≤ i < 2 → 0 ≤ j < 3 → getElement 0 M i j = Ret 5) ∧
       (∀ i, 0 ≤ i < 2 →
          ∃ a b, Vec.idx (rowind_ M) i = Some a ∧
                 Vec.idx (rowind_ M) (i + 1) = Some b ∧
                 b - a = 3 ∧
                 ∀ j, 0 ≤ j < 3 → Vec.idx (col_ M) (a + j) = Some j).
Proof. apply (dense_fill 0 2 3 5). unfold shape_fits, int_max. lia. Defined.

(** C7. Scalar promotion: [Matrix(val)] constructs the matrix that
    [Matrix(1, 1, val)] constructs: one row, one column, one stored entry,
    and [getElement(0, 0)] returns [val]. *)
Theorem scalar_constructor {T : Type} (zero : T) (val : T) :
  Matrix_scalar zero val = Matrix_dense 1 1 val ∧
  ∃ M, Matrix_scalar zero val = Ret M ∧
       nrow_ M = 1 ∧ ncol_ M = 1 ∧ length (vec M) = 1%nat ∧
       getElement zero M 0 0 = Ret val.
Proof.
  split; [reflexivity|].
  exists (mkMatrix [val] [0] [0; 1] 1 1). by repeat split.
Qed.

(** C10. On a matrix that satisfies the data model (the invariants, with
    every stored column a column of the matrix), [getElement(i, j)] with a
    row [i] of the matrix and a negative column [j] throws nothing and
    returns zero: the bounds test compares with the upper bounds only, and
    no stored column equals [j]. *)
Theorem getElement_negative_column {T : Type} (zero : T) (M : Matrix T) (i j : Z) :
  WF M → 0 ≤ i < nrow_ M → j < 0 →
  getElement zero M i j = Ret zero.
Proof.
  intros (HI & Hcols & Hm) Hi Hj.
  apply getElement_absent; [done|done|lia|].
  intros (k & lo & hi & _ & _ & _ & Hc).
  apply Hcols in Hc. lia.
Qed.

Lemma getElement_negative_column_witness :
  getElement 0 (mkMatrix [7] [2] [0; 0; 1; 1] 3 3) 1 (-1) = Ret 0.
Proof.
  apply (getElement_negative_column 0 (mkMatrix [7] [2] [0; 0; 1; 1] 3 3) 1 (-1)).
  - split; [apply check_inv_sound; reflexivity|].
    split; [apply check_cols_sound; reflexivity|simpl; lia].
  - simpl. lia.
  - lia.
Defined.

(** C3. The bounds test of both accesses compares the coordinate with the
    upper bounds only.  On the empty 1-by-1 matrix, [getElement(0, -1)]
    returns zero; [getElementRef(0, -1)] stores the column [-1];
    [getElement(-1, 0)] is left by the [std::out_of_range] of
    [rowind_.at(-1)], which is no [CasadiException]; and
    [getElementRef(-1, 0)] reads [rowind_[-1]]. *)
Theorem negative_index_not_rejected :
  let M := mkMatrix (T := Z) [] [] [0; 0] 1 1 in
  Matrix_empty 1 1 = Ret M ∧
  getElement 0 M 0 (-1) = Ret 0 ∧
  getElementRef 0 0 (-1) M = (Ret 0, mkMatrix [0] [-1] [0; 1] 1 1) ∧
  getElement 0 M (-1) 0 = Throw std_out_of_range ∧
  ¬ IndexError std_out_of_range ∧
  getElementRef 0 (-1) 0 M = (Undefined, M).
Proof.
  repeat split; try reflexivity. by intros [|].
Qed.

(** ** Programs keep the invariants *)

Section Programs.
Context {T A : Type}.
Variables (zero one : T) (conv : A → T).
Implicit Types (M : Matrix T).

Lemma shaped_ok (x : list A) n m :
  shape_fits n m → Z.of_nat (length x) = n * m →
  ∃ M, construct (st_bind (makeDense n m one) (λ _, copy_in conv x)) = Ret M ∧
       dense_pattern M n m ∧ vec M = conv <$> x.
Proof.
  intros Hfits Hx.
  destruct (makeDense_ok n m one raw Hfits) as (M & Hrun & HD & _).
  destruct (copy_in_ok conv x M n m HD Hx) as [Hcopy HD'].
  exists (set_vec (conv <$> x) M).
  unfold construct, st_bind. by rewrite Hrun, Hcopy.
Qed.

(** The body of the constructors from a flat sequence throws nothing but the
    [std::length_error] of a [resize]. *)
Lemma shaped_throws (x : list A) n m e :
  construct (st_bind (makeDense n m one) (λ _, copy_in conv x)) = Throw e →
  e = std_length_error.
Proof.
  unfold construct, st_bind, makeDense, copy_in, Vec.resize.
  intros H. repeat case_match; simplify_eq; done.
Qed.

Lemma WF_check M :
  check_inv M = true → check_cols M = true → 0 ≤ ncol_ M → WF M.
Proof.
  intros HI Hc Hm. split; [by apply check_inv_sound|].
  split; [by apply check_cols_sound|done].
Qed.

Lemma WF_empty n m :
  0 ≤ n → 0 ≤ m → WF (T := T) (mkMatrix [] [] (replicate (Z.to_nat (n + 1)) 0) n m).
Proof.
  intros Hn Hm. split; [by apply Inv_empty|]. split; [|done].
  intros k c Hc. apply idx_Some in Hc. simpl in Hc. lia.
Qed.

Lemma WF_dense M n m : dense_pattern M n m → 0 ≤ n → 0 ≤ m → WF M.
Proof.
  intros HD Hn Hm. split; [by apply (Inv_dense M n m)|].
  split; [by apply (dense_cols M n m)|]. by rewrite (dp_ncol M n m HD).
Qed.

Lemma assign_cols M k v M' :
  assign v k M = (Ret (), M') → col_ M' = col_ M ∧ ncol_ M' = ncol_ M.
Proof.
  unfold assign. destruct (Vec.store (vec M) k v); [|done]. by intros [= <-].
Qed.

Lemma valid_ctor_fits (c : @ctor T A) :
  valid_ctor c = true → shape_fits (shape_of c).1 (shape_of c).2.
Proof.
  destruct c as [|n m|n m val|val|x|x n m]; simpl;
    rewrite ?andb_true_iff, ?valid_shape_spec; try done.
  by intros [? _].
Qed.

Lemma new_ok (c : @ctor T A) :
  valid_ctor c = true →
  ∃ M, new zero one conv c = Ret M ∧ WF M ∧ (nrow_ M, ncol_ M) = shape_of c.
Proof.
  destruct c as [|n m|n m val|val|x|x n m]; simpl;
    rewrite ?andb_true_iff, ?valid_shape_spec, ?Z.eqb_eq.
  - intros _. eexists. split; [reflexivity|]. split; [by apply WF_check|done].
  - intros (Hn & Hm & Hnm). unfold Matrix_empty, construct.
    rewrite makeEmpty_ok by done. eexists. split; [done|].
    split; [apply WF_empty; lia|done].
  - intros Hfits. unfold Matrix_dense, construct.
    destruct (makeDense_ok n m val raw Hfits) as (M & -> & HD & _).
    destruct Hfits as ([Hn _] & [Hm _] & _).
    exists M. split; [done|]. split; [by apply (WF_dense M n m)|].
    by rewrite (dp_nrow M n m HD), (dp_ncol M n m HD).
  - intros _. eexists. split; [reflexivity|]. split; [by apply WF_check|done].
  - intros Hfits. unfold Matrix_vector.
    rewrite wrap_id by (unfold shape_fits, int_min in *; lia).
    destruct (shaped_ok x (Z.of_nat (length x)) 1) as (M & -> & HD & _);
      [done|lia|].
    exists M. split; [done|]. split; [apply (WF_dense M _ 1 HD); lia|].
    by rewrite (dp_nrow M _ _ HD), (dp_ncol M _ _ HD).
  - intros [Hfits Hx]. unfold Matrix_shaped.
    rewrite (proj2 (shape_fits_wrap n m Hfits)).
    rewrite size_t_of_int_id by (unfold shape_fits in Hfits; nia).
    rewrite Hx, Z.eqb_refl. simpl.
    destruct (shaped_ok x n m Hfits Hx) as (M & -> & HD & _).
    destruct Hfits as ([Hn _] & [Hm _] & _).
    exists M. split; [done|]. split; [by apply (WF_dense M n m)|].
    by rewrite (dp_nrow M n m HD), (dp_ncol M n m HD).
Qed.

Lemma in_bounds_spec M i j :
  in_bounds (nrow_ M, ncol_ M) i j = true → 0 ≤ i < nrow_ M ∧ 0 ≤ j < ncol_ M.
Proof. unfold in_bounds. simpl. rewrite !andb_true_iff. lia. Qed.

Lemma run_ok (ops : list (@op T)) M :
  WF M → shape_fits (nrow_ M) (ncol_ M) →
  valid_ops (nrow_ M, ncol_ M) ops = true →
  ∃ M', run zero ops M = (Ret (), M') ∧ WF M' ∧
        shape_fits (nrow_ M') (ncol_ M').
Proof.
  revert M. induction ops as [|o ops IH]; intros M HW HF Hv.
  { exists M. done. }
  assert (Hnext : ∀ M1, exec zero o M = (Ret (), M1) → WF M1 →
            shape_fits (nrow_ M1) (ncol_ M1) →
            valid_ops (nrow_ M1, ncol_ M1) ops = true →
            ∃ M', run zero (o :: ops) M = (Ret (), M') ∧ WF M' ∧
                  shape_fits (nrow_ M') (ncol_ M')).
  { intros M1 Hexec HW1 HF1 Hv1.
    destruct (IH M1 HW1 HF1 Hv1) as (M' & Hrun & HW').
    exists M'. simpl. unfold st_bind. by rewrite Hexec. }
  destruct HW as (HI & Hcols & Hncol).
  destruct o as [i j|i j|i j v|n m val|n m]; simpl in Hv;
    apply andb_true_iff in Hv as [Hb Hv].
  - apply in_bounds_spec in Hb as [Hi Hj].
    destruct (getElement_ok zero M i j HI Hi) as [x Hx]; [lia|].
    apply (Hnext M); [|done|done|done].
    simpl. unfold call, st_bind, st_const. by rewrite Hx.
  - apply in_bounds_spec in Hb as [Hi Hj].
    destruct (getElementRef_ok zero M i j HI Hi)
      as (k & M1 & Href & HI1 & Hn & Hm & _); [lia|].
    apply (Hnext M1); [| |by rewrite Hn, Hm|by rewrite Hn, Hm].
    + simpl. unfold call, st_bind. by rewrite Href.
    + split; [done|]. split; [|lia].
      by apply (getElementRef_cols zero M i j k M1).
  - apply in_bounds_spec in Hb as [Hi Hj].
    destruct (setElement_ok zero M i j v HI Hi)
      as (k & M1 & M2 & Href & Hassign & Hset & HI2 & Hn & Hm & _); [lia|].
    apply (Hnext M2); [done| |by rewrite Hn, Hm|by rewrite Hn, Hm].
    split; [done|]. split; [|lia].
    destruct (assign_cols M1 k v M2 Hassign) as [Hc Hm2].
    pose proof (getElementRef_cols zero M i j k M1 HI Hi Hj Href Hcols) as Hcols1.
    intros k' c. rewrite Hc, Hm2. apply Hcols1.
  - apply valid_shape_spec in Hb.
    destruct (makeDense_ok n m val M Hb) as (M1 & Hrun & HD & _).
    pose proof (dp_nrow M1 n m HD) as Hn1. pose proof (dp_ncol M1 n m HD) as Hm1.
    apply (Hnext M1); [done| |by rewrite Hn1, Hm1|by rewrite Hn1, Hm1].
    destruct Hb as ([Hn _] & [Hm _] & _). by apply (WF_dense M1 n m).
  - apply valid_shape_spec in Hb. pose proof Hb as (Hn & Hm & _).
    apply (Hnext (mkMatrix [] [] (replicate (Z.to_nat (n + 1)) 0) n m)).
    + simpl. by apply makeEmpty_ok.
    + apply WF_empty; lia.
    + done.
    + done.
Qed.

(** Every program of valid calls runs to its end, and the matrix it ends
    with satisfies the data model, with a shape that fits. *)
Lemma program_ok (c : @ctor T A) (ops : list (@op T)) :
  valid_ctor c = true → valid_ops (shape_of c) ops = true →
  ∃ M, program zero one conv c ops = Ret M ∧ WF M ∧
       shape_fits (nrow_ M) (ncol_ M).
Proof.
  intros Hc Hops.
  destruct (new_ok c Hc) as (M0 & Hnew & HW0 & Hshape).
  pose proof (valid_ctor_fits c Hc) as HF0.
  rewrite <- Hshape in Hops, HF0.
  destruct (run_ok ops M0 HW0 HF0 Hops) as (M & Hrun & HW & HF).
  exists M. unfold program. rewrite Hnew. simpl. by rewrite Hrun.
Qed.
End Programs.

(** C1. Every program of valid calls (a constructor, then reads, write
    accesses, assignments through a reference and re-initialisations, in any
    order and number, every shape without a negative side and with [n + 1]
    and [n * m] in the range of [int]) runs to its end, and the matrix it
    ends with satisfies [Inv]: [rowind_] has [nrow_ + 1] entries, starts with
    [0], ends with the common length of [vec] and [col_], does not decrease,
    and the columns of every row increase strictly. *)
Theorem invariants_hold {T A : Type} (zero one : T) (conv : A → T)
    (c : @ctor T A) (ops : list (@op T)) :
  valid_ctor c = true → valid_ops (shape_of c) ops = true →
  ∃ M, program zero one conv c ops = Ret M ∧ Inv M.
Proof.
  intros Hc Hops.
  destruct (program_ok zero one conv c ops Hc Hops) as (M & Hrun & HW & _).
  exists M. split; [done|]. apply HW.
Qed.

Lemma invariants_hold_witness :
  ∃ M, program 0 1 id (NewEmpty 3 3)
         [OpSet 1 2 7; OpGet 0 0; OpRef 1 0; OpSet 2 1 4; OpRef 1 2;
          OpMakeDense 2 2 1; OpSet 0 1 5; OpMakeEmpty 1 4; OpSet 0 3 2;
          OpSet 0 1 6] = Ret M ∧ Inv M.
Proof. by apply (invariants_hold 0 1 id). Defined.

(** C8. For a shape [(n, m)] that fits (no negative side, and [n + 1] and
    [n * m] are [int]s), the constructor from a flat sequence [x] and the
    shape throws the dimension mismatch exactly when the length of [x] is
    not [n * m]; when it is, the matrix it constructs has the shape
    [(n, m)], stores every coordinate, and [getElement(i, j)] returns the
    converted element [i * m + j] of [x].  The sequence [1, 2, 3, 4] with the
    shape [(2, 2)] gives [1], [2], [3], [4] at [(0, 0)], [(0, 1)], [(1, 0)],
    [(1, 1)], and a sequence of three elements with this shape throws the
    dimension mismatch. *)
Theorem shaped_constructor :
  (∀ (T A : Type) (zero one : T) (conv : A → T) (x : list A) (n m : Z),
     shape_fits n m →
     ((∃ e, Matrix_shaped one conv x n m = Throw e ∧ DimensionError e) ↔
      Z.of_nat (length x) ≠ n * m) ∧
     (Z.of_nat (length x) = n * m →
      ∃ M, Matrix_shaped one conv x n m = Ret M ∧
           nrow_ M = n ∧ ncol_ M = m ∧ Z.of_nat (length (vec M)) = n * m ∧
           ∀ i j, 0 ≤ i < n → 0 ≤ j < m →
             stored M i j ∧
             ∃ a, Vec.idx x (i * m + j) = Some a ∧
                  getElement zero M i j = Ret (conv a))) ∧
  (∃ M, Matrix_shaped 1 id [1; 2; 3; 4] 2 2 = Ret M ∧
        getElement 0 M 0 0 = Ret 1 ∧ getElement 0 M 0 1 = Ret 2 ∧
        getElement 0 M 1 0 = Ret 3 ∧ getElement 0 M 1 1 = Ret 4) ∧
  Matrix_shaped 1 id [1; 2; 3] 2 2 = Throw (CasadiException dimension_msg).
Proof.
  split; [|split; [by eexists|done]].
  intros T A zero one conv x n m Hfits.
  assert (Htest : size_t_of_int (wrap (n * m)) = n * m).
  { rewrite (proj2 (shape_fits_wrap n m Hfits)).
    apply size_t_of_int_id. unfold shape_fits in Hfits. nia. }
  unfold Matrix_shaped. rewrite Htest. split.
  - split.
    + intros (e & He & Hdim) Hx. rewrite Hx, Z.eqb_refl in He. simpl in He.
      apply shaped_throws in He. by rewrite He in Hdim.
    + intros Hx. destruct (Z.eqb_spec (Z.of_nat (length x)) (n * m)); [done|].
      simpl. by eexists.
  - intros Hx. rewrite Hx, Z.eqb_refl. simpl.
    destruct (shaped_ok one conv x n m Hfits Hx) as (M & -> & HD & Hvec).
    destruct Hfits as ([Hn _] & [Hm _] & _).
    exists M. split; [done|].
    split; [apply (dp_nrow M n m HD)|]. split; [apply (dp_ncol M n m HD)|].
    split; [apply (dp_vec M n m HD)|].
    intros i j Hi Hj. pose proof (dense_slot M n m i j HD Hi Hj) as Hslot.
    split; [by exists (i * m + j)|].
    destruct (idx_is_Some x (i * m + j)) as [a Ha]; [nia|].
    exists a. split; [done|].
    apply (getElement_stored zero M i j (i * m + j)).
    + by apply (Inv_dense M n m).
    + rewrite (dp_ncol M n m HD). lia.
    + done.
    + rewrite Hvec. unfold Vec.idx in *. destruct (i * m + j <? 0); [done|].
      by rewrite list_lookup_fmap, Ha.
Qed.

Lemma shaped_constructor_witness :
  ((∃ e, Matrix_shaped 1 id [1; 2; 3; 4; 5; 6] 2 3 = Throw e ∧ DimensionError e) ↔
   Z.of_nat (length [1; 2; 3; 4; 5; 6]) ≠ 2 * 3) ∧
  (Z.of_nat (length [1; 2; 3; 4; 5; 6]) = 2 * 3 →
   ∃ M, Matrix_shaped 1 id [1; 2; 3; 4; 5; 6] 2 3 = Ret M ∧
        nrow_ M = 2 ∧ ncol_ M = 3 ∧ Z.of_nat (length (vec M)) = 2 * 3 ∧
        ∀ i j, 0 ≤ i < 2 → 0 ≤ j < 3 →
          stored M i j ∧
          ∃ a, Vec.idx [1; 2; 3; 4; 5; 6] (i * 3 + j) = Some a ∧
               getElement 0 M i j = Ret (id a)).
Proof.
  apply (proj1 shaped_constructor Z Z 0 1 id [1; 2; 3; 4; 5; 6] 2 3).
  unfold shape_fits, int_max. lia.
Defined.

(** ** Printing *)

Section Strings.
Local Open Scope string_scope.

Lemma append_assoc (s t u : string) : (s ++ t) ++ u = s ++ (t ++ u).
Proof. induction s as [|a s IH]; simpl; [done|by rewrite IH]. Qed.

Lemma append_nil_r (s : string) : s ++ EmptyString = s.
Proof. induction s as [|a s IH]; simpl; [done|by rewrite IH]. Qed.

(** Joining with a separator is writing the first item and then every
    other item after a separator, which is how the loops print. *)
Lemma join_cons (sep a : string) (l : list string) :
  join sep (a :: l) = a ++ String.concat EmptyString ((λ s, sep ++ s) <$> l).
Proof.
  unfold join. revert a. induction l as [|b l IH]; intros a.
  - simpl. by rewrite append_nil_r.
  - change (String.concat sep (a :: b :: l))
      with (a ++ sep ++ String.concat sep (b :: l)).
    rewrite IH. f_equal.
    destruct l as [|c l]; simpl; by rewrite ?append_nil_r, ?append_assoc.
Qed.

Lemma seqZ_first (m n : Z) : (0 < n)%Z → seqZ m n = m :: seqZ (m + 1) (n - 1).
Proof. intros Hn. by rewrite seqZ_cons. Qed.

Lemma concat_empty_cons (a : string) (l : list string) :
  String.concat EmptyString (a :: l) = a ++ String.concat EmptyString l.
Proof. destruct l; simpl; [by rewrite append_nil_r|done]. Qed.
End Strings.

Section Printing.
Context {T : Type}.
Variables (zero : T) (render : T → string).
Implicit Types (M : Matrix T) (out : ostream) (p q : pr).
Local Open Scope string_scope.

Lemma writes_put s : writes (put s) s.
Proof. done. Qed.

Lemma writes_seq p q s t : writes p s → writes q t → writes (pr_seq p q) (s ++ t).
Proof.
  intros Hp Hq out. unfold pr_seq. by rewrite Hp, Hq, append_assoc.
Qed.

Lemma writes_assoc p q r s :
  writes (pr_seq p (pr_seq q r)) s → writes (pr_seq (pr_seq p q) r) s.
Proof.
  intros H out. rewrite <- (H out). unfold pr_seq.
  by destruct (p out) as [[| |] o].
Qed.

Lemma writes_eq p s t : writes p s → s = t → writes p t.
Proof. by intros Hp <-. Qed.

(** A loop whose body appends [f i] appends the [f i] in order. *)
Lemma writes_for (lo hi : Z) (body : Z → pr) (f : Z → string) :
  (∀ i, (lo ≤ i < hi)%Z → writes (body i) (f i)) →
  writes (pr_for lo hi body) (String.concat EmptyString (f <$> seqZ lo (hi - lo))).
Proof.
  unfold pr_for. remember (Z.to_nat (hi - lo)) as n eqn:Hn.
  revert lo Hn. induction n as [|n IH]; intros lo Hn Hbody.
  - rewrite seqZ_nil by lia. intros out. simpl. by rewrite append_nil_r.
  - rewrite seqZ_first by lia. rewrite fmap_cons, concat_empty_cons.
    simpl. apply writes_seq; [apply Hbody; lia|].
    replace (hi - lo - 1)%Z with (hi - (lo + 1))%Z by lia.
    apply IH; [lia|]. intros i Hi. apply Hbody. lia.
Qed.

Lemma writes_elem M i j :
  Inv M → (0 ≤ i < nrow_ M)%Z → (0 ≤ j < ncol_ M)%Z →
  writes (put_elem zero render M i j) (render (value zero M i j)).
Proof.
  intros HI Hi Hj out. unfold put_elem, value.
  destruct (getElement_ok zero M i j HI Hi) as [x ->]; [lia|done].
Qed.

(** The items of a row, as [printMatrix] writes them. *)
Lemma writes_row M i :
  Inv M → (0 ≤ i < nrow_ M)%Z → (0 < ncol_ M)%Z →
  writes
    (pr_seq (put_elem zero render M i 0)
       (pr_for 1 (size2 M) (λ j, pr_seq (put ",") (put_elem zero render M i j))))
    (format_row zero render M i).
Proof.
  intros HI Hi Hm. eapply writes_eq.
  - apply writes_seq; [apply writes_elem; [done|done|lia]|].
    apply (writes_for 1 (size2 M) _ (λ j, "," ++ render (value zero M i j))).
    intros j Hj. unfold size2 in Hj.
    apply writes_seq; [apply writes_put|apply writes_elem; [done|done|lia]].
  - unfold format_row, size2. rewrite (seqZ_first 0 (ncol_ M)) by lia.
    by rewrite fmap_cons, join_cons, <- list_fmap_compose.
Qed.

Lemma printVector_spec M :
  Inv M → (0 < nrow_ M)%Z → ncol_ M = 1%Z →
  writes (printVector zero render M)
    ("[" ++ render_int (nrow_ M) ++ "](" ++ format_column zero render M ++ ")").
Proof.
  intros HI Hn Hm. eapply writes_eq.
  - unfold printVector. repeat apply writes_seq; try apply writes_put.
    + apply writes_elem; [done|lia|lia].
    + apply (writes_for 1 (size1 M) _ (λ i, "," ++ render (value zero M i 0))).
      intros i Hi. unfold size1 in Hi.
      apply writes_seq; [apply writes_put|apply writes_elem; [done|lia|lia]].
  - unfold format_column, size1. rewrite (seqZ_first 0 (nrow_ M)) by lia.
    rewrite fmap_cons, join_cons, <- list_fmap_compose.
    by rewrite !append_assoc.
Qed.

Lemma printMatrix_spec M :
  Inv M → (0 < nrow_ M)%Z → (0 < ncol_ M)%Z →
  writes (printMatrix zero render M)
    ("[" ++ render_int (nrow_ M) ++ "," ++ render_int (ncol_ M) ++ "](" ++
     join "," ((λ i, "(" ++ format_row zero render M i ++ ")")
                 <$> seqZ 0 (nrow_ M)) ++ ")").
Proof.
  intros HI Hn Hm. eapply writes_eq.
  - unfold printMatrix.
    apply writes_seq; [|apply writes_put].
    apply writes_seq.
    + apply writes_seq; [|apply writes_put].
      apply writes_assoc.
      apply writes_seq; [repeat apply writes_seq; apply writes_put|].
      apply writes_row; [done|lia|done].
    + apply (writes_for 1 (size1 M) _
               (λ i, ",(" ++ format_row zero render M i ++ ")")).
      intros i Hi. unfold size1 in Hi.
      eapply writes_eq; [|apply append_assoc].
      apply writes_seq; [|apply writes_put].
      apply writes_assoc.
      apply writes_seq; [apply writes_put|].
      apply writes_row; [done|lia|done].
  - unfold size1, size2. rewrite (seqZ_first 0 (nrow_ M)) by lia.
    rewrite fmap_cons, join_cons, <- list_fmap_compose.
    rewrite !append_assoc. simpl. done.
Qed.
End Printing.

(** C9. On a matrix that satisfies the invariants, has no negative
    number of columns and whose number of elements is an [int], [print]
    ends normally after it has written the serialisation [format] of the
    specification: [<empty expression>] for [numel = 0]; the rendered value
    for [numel = 1]; the number of rows in brackets and the comma-joined
    values in parentheses for one column and more than one row; and
    otherwise both sides in brackets and the comma-joined rows, each the
    comma-joined values of the row in parentheses, in one more pair of
    parentheses.  The dense 2-by-2 matrix of [1, 2, 3, 4] prints as
    [[2,2]((1,2),(3,4))]. *)
Theorem print_format :
  (∀ (T : Type) (zero : T) (render : T → string) (M : Matrix T) (out : ostream),
     Inv M → 0 ≤ ncol_ M → nrow_ M * ncol_ M ≤ int_max →
     print zero render M out = (Ret (), (out ++ format zero render M)%string)) ∧
  (∃ M, Matrix_shaped 1 id [1; 2; 3; 4] 2 2 = Ret M ∧
        format 0 render_int M = "[2,2]((1,2),(3,4))"%string ∧
        print 0 render_int M EmptyString = (Ret (), "[2,2]((1,2),(3,4))"%string)).
Proof.
  split; [|by eexists].
  intros T zero render M out HI Hm Hfit. pose proof (inv_nrow M HI) as Hn.
  assert (Hnumel : numel M = nrow_ M * ncol_ M).
  { unfold numel, size1, size2. apply wrap_id. unfold int_min. nia. }
  unfold print, format, empty, printScalar. rewrite !Hnumel. unfold size2.
  destruct (Z.eqb_spec (nrow_ M * ncol_ M) 0) as [E0|E0]; [done|].
  destruct (Z.eqb_spec (nrow_ M * ncol_ M) 1) as [E1|E1].
  { simpl. apply writes_elem; [done|nia|nia]. }
  destruct (Z.eqb_spec (ncol_ M) 1) as [Ec|Ec].
  { destruct (Z.ltb_spec 1 (nrow_ M)); [|nia]. simpl.
    apply printVector_spec; [done|lia|done]. }
  simpl. apply printMatrix_spec; [done|nia|nia].
Qed.

Lemma print_format_witness :
  print 0 render_int (mkMatrix [7] [2] [0; 0; 1; 1] 3 3) EmptyString =
    (Ret (), format 0 render_int (mkMatrix [7] [2] [0; 0; 1; 1] 3 3)).
Proof.
  apply (proj1 print_format Z 0 render_int (mkMatrix [7] [2] [0; 0; 1; 1] 3 3)
           EmptyString).
  - apply check_inv_sound. reflexivity.
  - simpl. lia.
  - unfold int_max. simpl. lia.
Defined.

(** ** The scenarios of the specification, at [T = Z] *)

(** Scenario A: the empty 3-by-3 matrix, and a first write at [(1, 2)]. *)
Example scenario_A :
  Matrix_empty 3 3 = Ret (mkMatrix (T := Z) [] [] [0; 0; 0; 0] 3 3) ∧
  ∃ M, setElement 0 1 2 7 (mkMatrix [] [] [0; 0; 0; 0] 3 3) = (Ret (), M) ∧
       rowind_ M = [0; 0; 1; 1] ∧ col_ M = [2] ∧ vec M = [7] ∧
       getElement 0 M 1 2 = Ret 7 ∧ getElement 0 M 0 0 = Ret 0 ∧
       getElement 0 M 1 0 = Ret 0.
Proof. split; [done|]. by eexists. Qed.

(** Scenario B: a row past the last one. *)
Example scenario_B :
  ∃ e, getElement 0 (mkMatrix [7] [2] [0; 0; 1; 1] 3 3) 3 0 = Throw e ∧
       IndexError e.
Proof. eexists. split; [reflexivity|by left]. Qed.

(** * Further properties of the code *)

(** ** What a write access does to the other coordinates *)

Section WriteAccess.
Context {T : Type}.
Variable zero : T.
Implicit Types (M : Matrix T).

(** The matrix after the insertion of a coordinate that was not stored. *)
Lemma getElementRef_layout M i j :
  Inv M → 0 ≤ i < nrow_ M → j < ncol_ M → ¬ stored M i j →
  ∃ k lo hi M',
    getElementRef zero i j M = (Ret k, M') ∧ Inv M' ∧
    nrow_ M' = nrow_ M ∧ ncol_ M' = ncol_ M ∧
    Vec.idx (rowind_ M) i = Some lo ∧ Vec.idx (rowind_ M) (i + 1) = Some hi ∧
    lo ≤ k ≤ hi ∧
    Vec.insert (vec M) k zero = Some (vec M') ∧
    Vec.insert (col_ M) k j = Some (col_ M') ∧
    ∀ x, Vec.idx (rowind_ M') x =
           if i <? x then (λ a, a + 1) <$> Vec.idx (rowind_ M) x
           else Vec.idx (rowind_ M) x.
Proof.
  intros HI Hi Hj Habs.
  destruct (getElementRef_absent zero M i j HI Hi Hj Habs)
    as (k0 & M0 & Href & HI0 & Hn0 & Hm0 & _ & _ & _).
  destruct (inv_row M i HI Hi) as (lo & hi & Hlo & Hhi & Hbd & Hlen & Hs).
  pose proof (inv_nnz M HI) as Hnnz. pose proof (inv_length M HI) as Hrl.
  destruct (scan_absent (col_ M) j lo hi) as (k & Hscan & Hk & _); [done|done| |].
  { intros k Hk Hc. apply Habs. exists k, lo, hi. done. }
  destruct (insert_Some (vec M) k zero) as [v Hv]; [lia|].
  destruct (insert_Some (col_ M) k j) as [c Hc]; [lia|].
  destruct (bump_rows (rowind_ M) i (nrow_ M) Hi Hrl) as (r & Hr & _ & Hridx).
  assert (Heq : getElementRef zero i j M =
                (Ret k, mkMatrix v c r (nrow_ M) (ncol_ M))).
  { unfold getElementRef, size1, size2.
    destruct (Z.geb_spec i (nrow_ M)); [lia|].
    destruct (Z.geb_spec j (ncol_ M)); [lia|]. simpl.
    rewrite Hlo, Hhi, Hscan, Hv. simpl. rewrite Hc. simpl.
    unfold size1. simpl. rewrite Hr. simpl.
    rewrite (at_Ret v k zero); [done|].
    rewrite (idx_insert _ _ _ _ k Hv).
    destruct (Z.ltb_spec k k); [lia|]. by rewrite Z.eqb_refl. }
  assert (k0 = k ∧ M0 = mkMatrix v c r (nrow_ M) (ncol_ M)) as [-> ->].
  { rewrite Heq in Href. by injection Href as <- <-. }
  exists k, lo, hi, (mkMatrix v c r (nrow_ M) (ncol_ M)).
  split; [done|]. split; [done|]. split; [done|]. split; [done|].
  split; [done|]. split; [done|]. split; [done|]. by split.
Qed.

(** Two coordinates that share a slot are one coordinate. *)
Lemma slot_inj M i j i' j' k :
  Inv M → slot M i j k → slot M i' j' k → i = i' ∧ j = j'.
Proof.
  intros HI (lo & hi & Hlo & Hhi & Hk & Hj) (lo' & hi' & Hlo' & Hhi' & Hk' & Hj').
  assert (i = i') as <-.
  { destruct (Z.lt_trichotomy i i') as [Hlt|[->|Hgt]]; [|done|].
    - assert (hi ≤ lo'); [|lia].
      apply (inv_mono_le M (i + 1) i' hi lo' HI); [lia|done|done].
    - assert (hi' ≤ lo); [|lia].
      apply (inv_mono_le M (i' + 1) i hi' lo HI); [lia|done|done]. }
  split; [done|]. rewrite Hj in Hj'. by injection Hj'.
Qed.
(** The slots of a matrix after an insertion at slot [k]: the slots before
    [k] stay, the slots from [k] on move up by one, with their values. *)
Lemma slot_after_insert M M' i j k lo hi i' j' k' :
  Inv M →
  Vec.idx (rowind_ M) i = Some lo → Vec.idx (rowind_ M) (i + 1) = Some hi →
  lo ≤ k ≤ hi →
  Vec.insert (vec M) k zero = Some (vec M') →
  Vec.insert (col_ M) k j = Some (col_ M') →
  (∀ x, Vec.idx (rowind_ M') x =
          if i <? x then (λ a, a + 1) <$> Vec.idx (rowind_ M) x
          else Vec.idx (rowind_ M) x) →
  slot M i' j' k' →
  slot M' i' j' (if k' <? k then k' else k' + 1) ∧
  Vec.idx (vec M') (if k' <? k then k' else k' + 1) = Vec.idx (vec M) k'.
Proof.
  intros HI Hlo Hhi Hk Hv Hc Hr (a & b & Ha & Hb & Hk' & Hj').
  assert (Hidx : ∀ {A} (u u' : list A) y, Vec.insert u k y = Some u' →
            Vec.idx u' (if k' <? k then k' else k' + 1) = Vec.idx u k').
  { intros A u u' y Hu.
    rewrite (idx_insert _ _ _ _ _ Hu).
    destruct (Z.ltb_spec k' k) as [Hlt|Hge].
    - by destruct (Z.ltb_spec k' k); [|lia].
    - destruct (Z.ltb_spec (k' + 1) k); [lia|].
      destruct (Z.eqb_spec (k' + 1) k); [lia|]. f_equal. lia. }
  split; [|by apply (Hidx _ _ _ zero)].
  destruct (Z.lt_trichotomy i' i) as [Hlt|[->|Hgt]].
  - (* a row before [i] *)
    assert (b ≤ lo) by (apply (inv_mono_le M (i' + 1) i b lo HI); [lia|done|done]).
    exists a, b. rewrite !Hr.
    destruct (Z.ltb_spec i i'); [lia|]. destruct (Z.ltb_spec i (i' + 1)); [lia|].
    split; [done|]. split; [done|].
    destruct (Z.ltb_spec k' k) as [_|]; [|lia]. split; [done|].
    rewrite <- Hj'. rewrite <- (Hidx _ _ _ j Hc).
    by destruct (Z.ltb_spec k' k); [|lia].
  - (* row [i] *)
    rewrite Hlo in Ha. rewrite Hhi in Hb. injection Ha as <-. injection Hb as <-.
    exists lo, (hi + 1). rewrite !Hr.
    destruct (Z.ltb_spec i i); [lia|]. destruct (Z.ltb_spec i (i + 1)); [|lia].
    rewrite Hlo, Hhi. split; [done|]. split; [done|].
    rewrite <- Hj', <- (Hidx _ _ _ j Hc).
    split; [|done]. destruct (Z.ltb_spec k' k); lia.
  - (* a row after [i] *)
    assert (hi ≤ a) by (apply (inv_mono_le M (i + 1) i' hi a HI); [lia|done|done]).
    exists (a + 1), (b + 1). rewrite !Hr.
    destruct (Z.ltb_spec i i'); [|lia]. destruct (Z.ltb_spec i (i' + 1)); [|lia].
    rewrite Ha, Hb. split; [done|]. split; [done|].
    rewrite <- Hj', <- (Hidx _ _ _ j Hc).
    split; [|done]. destruct (Z.ltb_spec k' k); lia.
Qed.

(** And back: a slot of the matrix after the insertion, other than the new
    one, is a slot of the matrix before. *)
Lemma slot_before_insert M M' i j k lo hi i' j' k' :
  Inv M →
  Vec.idx (rowind_ M) i = Some lo → Vec.idx (rowind_ M) (i + 1) = Some hi →
  lo ≤ k ≤ hi →
  Vec.insert (col_ M) k j = Some (col_ M') →
  (∀ x, Vec.idx (rowind_ M') x =
          if i <? x then (λ a, a + 1) <$> Vec.idx (rowind_ M) x
          else Vec.idx (rowind_ M) x) →
  slot M' i' j' k' → k' ≠ k → stored M i' j'.
Proof.
  intros HI Hlo Hhi Hk Hc Hr (a & b & Ha & Hb & Hk' & Hj') Hne.
  rewrite Hr in Ha. rewrite Hr in Hb.
  rewrite (idx_insert _ _ _ _ _ Hc) in Hj'.
  destruct (Z.eqb_spec k' k) as [|_]; [done|].
  exists (if k' <? k then k' else k' - 1).
  destruct (Z.lt_trichotomy i' i) as [Hlt|[->|Hgt]].
  - destruct (Z.ltb_spec i i'); [lia|]. destruct (Z.ltb_spec i (i' + 1)); [lia|].
    assert (b ≤ lo) by (apply (inv_mono_le M (i' + 1) i b lo HI); [lia|done|done]).
    exists a, b. destruct (Z.ltb_spec k' k); [|lia]. done.
  - destruct (Z.ltb_spec i i); [lia|]. destruct (Z.ltb_spec i (i + 1)); [|lia].
    rewrite Hlo in Ha. rewrite Hhi in Hb. simpl in Hb.
    injection Ha as <-. injection Hb as <-.
    exists lo, hi. split; [done|]. split; [done|].
    destruct (Z.ltb_spec k' k); (split; [lia|done]).
  - destruct (Z.ltb_spec i i'); [|lia]. destruct (Z.ltb_spec i (i' + 1)); [|lia].
    destruct (Vec.idx (rowind_ M) i') as [a0|] eqn:Ea; [|done].
    destruct (Vec.idx (rowind_ M) (i' + 1)) as [b0|] eqn:Eb; [|done].
    simpl in *. injection Ha as <-. injection Hb as <-.
    assert (hi ≤ a0) by (apply (inv_mono_le M (i + 1) i' hi a0 HI); [lia|done|done]).
    exists a0, b0. split; [done|]. split; [done|].
    destruct (Z.ltb_spec k' k); [lia|]. split; [lia|done].
Qed.

(** The reads across a write access. *)
Lemma getElementRef_reads_kept M i j :
  Inv M → 0 ≤ i < nrow_ M → j < ncol_ M →
  ∃ k M', getElementRef zero i j M = (Ret k, M') ∧
          ∀ i' j', 0 ≤ i' < nrow_ M → j' < ncol_ M →
                   getElement zero M' i' j' = getElement zero M i' j'.
Proof.
  intros HI Hi Hj.
  destruct (stored_dec M i j HI Hi) as [[k Hk]|Habs].
  { exists k, M. by rewrite (getElementRef_stored zero M i j k). }
  destruct (getElementRef_layout M i j HI Hi Hj Habs)
    as (k & lo & hi & M' & Href & HI' & Hn & Hm & Hlo & Hhi & Hk & Hv & Hc & Hr).
  exists k, M'. split; [done|]. intros i' j' Hi' Hj'.
  destruct (stored_dec M i' j' HI Hi') as [[k' Hk']|Habs'].
  - destruct (slot_vec M i' j' k' HI Hk') as [x Hx].
    destruct (slot_after_insert M M' i j k lo hi i' j' k') as [Hslot Hval];
      try done.
    rewrite (getElement_stored zero M i' j' k' x); [|done..].
    apply (getElement_stored zero M' i' j' (if k' <? k then k' else k' + 1) x);
      [done|lia|done|].
    by rewrite Hval.
  - rewrite (getElement_absent zero M i' j'); [|done..].
    destruct (stored_dec M' i' j' HI') as [[k' Hk']|Habs'']; [lia| |].
    + destruct (Z.eq_dec k' k) as [->|Hne].
      * apply (getElement_stored zero M' i' j' k); [done|lia|done|].
        rewrite (idx_insert _ _ _ _ k Hv).
        destruct (Z.ltb_spec k k); [lia|]. by rewrite Z.eqb_refl.
      * destruct Habs'. by apply (slot_before_insert M M' i j k lo hi i' j' k').
    + apply getElement_absent; [done|lia|lia|done].
Qed.

(** [getElementRef] alone is invisible to the reads: whether it finds the
    coordinate or inserts it, [getElement] returns at every coordinate of
    the matrix what it returned before. *)
Theorem getElementRef_keeps_reads M i j :
  Inv M → 0 ≤ i < nrow_ M → j < ncol_ M →
  ∃ k M', getElementRef zero i j M = (Ret k, M') ∧
          ∀ i' j', 0 ≤ i' < nrow_ M → j' < ncol_ M →
                   getElement zero M' i' j' = getElement zero M i' j'.
Proof. apply getElementRef_reads_kept. Qed.

End WriteAccess.

Lemma getElementRef_keeps_reads_witness :
  ∃ k M', getElementRef 0 1 0 (mkMatrix [7] [2] [0; 0; 1; 1] 3 3) = (Ret k, M') ∧
          ∀ i' j', 0 ≤ i' < 3 → j' < 3 →
                   getElement 0 M' i' j' =
                   getElement 0 (mkMatrix [7] [2] [0; 0; 1; 1] 3 3) i' j'.
Proof.
  apply (getElementRef_keeps_reads 0 (mkMatrix [7] [2] [0; 0; 1; 1] 3 3) 1 0).
  - apply check_inv_sound. reflexivity.
  - simpl. lia.
  - simpl. lia.
Defined.

Section WriteReads.
Context {T : Type}.
Variable zero : T.
Implicit Types (M : Matrix T).

(** The reads across an assignment. *)
Lemma setElement_read_spec M i j v :
  Inv M → 0 ≤ i < nrow_ M → j < ncol_ M →
  ∃ M'', setElement zero i j v M = (Ret (), M'') ∧ Inv M'' ∧
         nrow_ M'' = nrow_ M ∧ ncol_ M'' = ncol_ M ∧
         ∀ i' j', 0 ≤ i' < nrow_ M → j' < ncol_ M →
           getElement zero M'' i' j' =
             if (i' =? i) && (j' =? j) then Ret v else getElement zero M i' j'.
Proof.
  intros HI Hi Hj.
  destruct (setElement_ok zero M i j v HI Hi Hj)
    as (k & M' & M'' & Href & Hassign & Hset & HI'' & Hn & Hm & Hslot & Hv).
  destruct (getElementRef_reads_kept zero M i j HI Hi Hj)
    as (k0 & M0 & Href0 & Hreads).
  rewrite Href in Href0. injection Href0 as <- <-.
  exists M''. split; [done|]. split; [done|]. split; [done|]. split; [done|].
  intros i' j' Hi' Hj'. rewrite <- (Hreads i' j' Hi' Hj').
  unfold assign in Hassign.
  destruct (Vec.store (vec M') k v) as [d|] eqn:Hd; [|done].
  injection Hassign as <-.
  destruct (getElementRef_ok zero M i j HI Hi Hj) as (k1 & M1 & Href1 & HI' & Hn' & Hm' & _).
  rewrite Href in Href1. injection Href1 as <- <-.
  assert (Hslot' : slot M' i j k) by done.
  destruct (stored_dec M' i' j' HI') as [[k' Hk']|Habs]; [lia| |].
  - destruct (slot_vec M' i' j' k' HI' Hk') as [x Hx].
    rewrite (getElement_stored zero M' i' j' k' x); [|done|lia|done|done].
    destruct (Z.eq_dec k' k) as [->|Hne].
    + destruct (slot_inj M' i j i' j' k HI' Hslot' Hk') as [<- <-].
      rewrite !Z.eqb_refl. simpl.
      apply (getElement_stored zero (set_vec d M') i j k);
        [done|simpl; lia|done|done].
    + assert ((i' =? i) && (j' =? j) = false) as ->.
      { apply andb_false_iff.
        destruct (Z.eqb_spec i' i) as [->|]; [|by left].
        destruct (Z.eqb_spec j' j) as [->|]; [|by right].
        destruct Hne. by apply (slot_unique M' i j). }
      apply (getElement_stored zero (set_vec d M') i' j' k');
        [done|simpl; lia|done|].
      simpl. rewrite (idx_store _ _ _ _ k' Hd).
      by destruct (Z.eqb_spec k' k).
  - assert ((i' =? i) && (j' =? j) = false) as ->.
    { apply andb_false_iff.
      destruct (Z.eqb_spec i' i) as [->|]; [|by left].
      destruct (Z.eqb_spec j' j) as [->|]; [|by right].
      destruct Habs. by exists k. }
    rewrite (getElement_absent zero M' i' j'); [|done|lia|lia|done].
    apply getElement_absent; [done|simpl; lia|simpl; lia|done].
Qed.

(** [getElementRef(i, j) = v] changes what [getElement] returns at [(i, j)],
    to [v], and at no other coordinate of the matrix; it keeps the
    invariants and the shape. *)
Theorem setElement_reads M i j v :
  Inv M → 0 ≤ i < nrow_ M → j < ncol_ M →
  ∃ M'', setElement zero i j v M = (Ret (), M'') ∧ Inv M'' ∧
         nrow_ M'' = nrow_ M ∧ ncol_ M'' = ncol_ M ∧
         ∀ i' j', 0 ≤ i' < nrow_ M → j' < ncol_ M →
           getElement zero M'' i' j' =
             if (i' =? i) && (j' =? j) then Ret v else getElement zero M i' j'.
Proof. apply setElement_read_spec. Qed.

(** Two assignments at different coordinates of the matrix commute, as far
    as [getElement] can tell. *)
Theorem setElement_commute M i j v p q w :
  Inv M → 0 ≤ i < nrow_ M → j < ncol_ M → 0 ≤ p < nrow_ M → q < ncol_ M →
  (i, j) ≠ (p, q) →
  ∃ M1 M2,
    st_bind (setElement zero i j v) (λ _, setElement zero p q w) M = (Ret (), M1) ∧
    st_bind (setElement zero p q w) (λ _, setElement zero i j v) M = (Ret (), M2) ∧
    ∀ i' j', 0 ≤ i' < nrow_ M → j' < ncol_ M →
             getElement zero M1 i' j' = getElement zero M2 i' j'.
Proof.
  intros HI Hi Hj Hp Hq Hne.
  destruct (setElement_read_spec M i j v HI Hi Hj) as (Ma & Ha & HIa & Hna & Hma & Hra).
  destruct (setElement_read_spec M p q w HI Hp Hq) as (Mb & Hb & HIb & Hnb & Hmb & Hrb).
  destruct (setElement_read_spec Ma p q w HIa) as (M1 & H1 & _ & _ & _ & Hr1); [lia..|].
  destruct (setElement_read_spec Mb i j v HIb) as (M2 & H2 & _ & _ & _ & Hr2); [lia..|].
  exists M1, M2. unfold st_bind. rewrite Ha, Hb.
  split; [done|]. split; [done|]. intros i' j' Hi' Hj'.
  rewrite Hr1, Hr2 by lia. rewrite Hra, Hrb by lia.
  destruct (Z.eqb_spec i' p) as [->|], (Z.eqb_spec j' q) as [->|],
    (Z.eqb_spec p i) as [->|], (Z.eqb_spec q j) as [->|]; simpl; try done.
  all: destruct (Z.eqb_spec i' i) as [->|], (Z.eqb_spec j' j) as [->|];
    simpl; done.
Qed.

(** The pattern grows by the coordinate of a write access and by nothing
    else: a stored coordinate gives back the matrix as it is; one that is
    not stored adds one slot, which holds zero. *)
Theorem getElementRef_fill_in M i j :
  Inv M → 0 ≤ i < nrow_ M → j < ncol_ M →
  (stored M i j → ∃ k, getElementRef zero i j M = (Ret k, M)) ∧
  (¬ stored M i j →
   ∃ k M', getElementRef zero i j M = (Ret k, M') ∧
           length (vec M') = S (length (vec M)) ∧
           length (col_ M') = S (length (col_ M)) ∧
           Vec.idx (vec M') k = Some zero ∧
           ∀ i' j', stored M' i' j' ↔ stored M i' j' ∨ (i' = i ∧ j' = j)).
Proof.
  intros HI Hi Hj. split.
  { intros [k Hk]. exists k. by apply getElementRef_stored. }
  intros Habs.
  destruct (getElementRef_layout zero M i j HI Hi Hj Habs)
    as (k & lo & hi & M' & Href & HI' & Hn & Hm & Hlo & Hhi & Hk & Hv & Hc & Hr).
  destruct (getElementRef_ok zero M i j HI Hi Hj) as (k1 & M1 & Href1 & _ & _ & _ & Hslot).
  rewrite Href in Href1. injection Href1 as <- <-.
  exists k, M'. split; [done|].
  split; [by apply (insert_length _ _ _ _ Hv)|].
  split; [by apply (insert_length _ _ _ _ Hc)|].
  split.
  { rewrite (idx_insert _ _ _ _ k Hv).
    destruct (Z.ltb_spec k k); [lia|]. by rewrite Z.eqb_refl. }
  intros i' j'. split.
  - intros [k' Hk']. destruct (Z.eq_dec k' k) as [->|Hne].
    + right. by destruct (slot_inj M' i j i' j' k HI' Hslot Hk') as [<- <-].
    + left. by apply (slot_before_insert M M' i j k lo hi i' j' k').
  - intros [[k' Hk']|[-> ->]]; [|by exists k].
    eexists. by apply (slot_after_insert zero M M' i j k lo hi i' j' k').
Qed.
End WriteReads.

Lemma setElement_reads_witness :
  ∃ M'', setElement 0 1 0 5 (mkMatrix [7] [2] [0; 0; 1; 1] 3 3) = (Ret (), M'') ∧
         Inv M'' ∧ nrow_ M'' = 3 ∧ ncol_ M'' = 3 ∧
         ∀ i' j', 0 ≤ i' < 3 → j' < 3 →
           getElement 0 M'' i' j' =
             if (i' =? 1) && (j' =? 0) then Ret 5
             else getElement 0 (mkMatrix [7] [2] [0; 0; 1; 1] 3 3) i' j'.
Proof.
  apply (setElement_reads 0 (mkMatrix [7] [2] [0; 0; 1; 1] 3 3) 1 0 5).
  - apply check_inv_sound. reflexivity.
  - simpl. lia.
  - simpl. lia.
Defined.

Lemma setElement_commute_witness :
  ∃ M1 M2,
    st_bind (setElement 0 1 0 5) (λ _, setElement 0 2 2 9)
      (mkMatrix [7] [2] [0; 0; 1; 1] 3 3) = (Ret (), M1) ∧
    st_bind (setElement 0 2 2 9) (λ _, setElement 0 1 0 5)
      (mkMatrix [7] [2] [0; 0; 1; 1] 3 3) = (Ret (), M2) ∧
    ∀ i' j', 0 ≤ i' < 3 → j' < 3 → getElement 0 M1 i' j' = getElement 0 M2 i' j'.
Proof.
  apply (setElement_commute 0 (mkMatrix [7] [2] [0; 0; 1; 1] 3 3) 1 0 5 2 2 9).
  - apply check_inv_sound. reflexivity.
  - simpl. lia.
  - simpl. lia.
  - simpl. lia.
  - simpl. lia.
  - discriminate.
Defined.

Lemma getElementRef_fill_in_witness :
  let M := mkMatrix [7] [2] [0; 0; 1; 1] 3 3 in
  (stored M 1 0 → ∃ k, getElementRef 0 1 0 M = (Ret k, M)) ∧
  (¬ stored M 1 0 →
   ∃ k M', getElementRef 0 1 0 M = (Ret k, M') ∧
           length (vec M') = S (length (vec M)) ∧
           length (col_ M') = S (length (col_ M)) ∧
           Vec.idx (vec M') k = Some 0 ∧
           ∀ i' j', stored M' i' j' ↔ stored M i' j' ∨ (i' = 1 ∧ j' = 0)).
Proof.
  apply (getElementRef_fill_in 0 (mkMatrix [7] [2] [0; 0; 1; 1] 3 3) 1 0).
  - apply check_inv_sound. reflexivity.
  - simpl. lia.
  - simpl. lia.
Defined.

(** ** The bounds test, for every coordinate *)

Section BoundsTest.
Context {T : Type}.
Variable zero : T.
Implicit Types (M : Matrix T).

(** On a matrix that satisfies the invariants, for a coordinate without a
    negative part: outside the matrix both accesses throw their
    out-of-bounds exception, and the write access leaves the matrix as it
    was; inside the matrix both accesses return. *)
Theorem access_bounds M i j :
  Inv M → 0 ≤ i → 0 ≤ j →
  (nrow_ M ≤ i ∨ ncol_ M ≤ j →
     getElement zero M i j = Throw (CasadiException getElement_msg) ∧
     getElementRef zero i j M = (Throw (CasadiException getElementRef_msg), M)) ∧
  (i < nrow_ M ∧ j < ncol_ M →
     (∃ x, getElement zero M i j = Ret x) ∧
     (∃ k M', getElementRef zero i j M = (Ret k, M'))).
Proof.
  intros HI Hi Hj. split.
  - intros Hout. split.
    + by apply getElement_out_of_bounds.
    + by apply getElementRef_out_of_bounds.
  - intros [Hi' Hj']. split.
    + apply getElement_ok; [done|lia|done].
    + destruct (getElementRef_ok zero M i j HI) as (k & M' & Href & _); [lia|done|].
      by exists k, M'.
Qed.

(** A negative column on a row of the matrix passes the bounds test of the
    write access: the assignment succeeds, the matrix keeps invariants 1 to
    3 and reads [v] back at the negative column, and it now stores a column
    that is no column of the matrix. *)
Theorem setElement_negative_column M i j v :
  Inv M → 0 ≤ ncol_ M → 0 ≤ i < nrow_ M → j < 0 →
  ∃ M', setElement zero i j v M = (Ret (), M') ∧ Inv M' ∧
        getElement zero M' i j = Ret v ∧ ¬ cols_in_range M'.
Proof.
  intros HI Hm Hi Hj.
  destruct (setElement_ok zero M i j v HI Hi)
    as (k & M1 & M' & _ & _ & Hset & HI' & _ & Hm' & Hslot & Hv); [lia|].
  exists M'. split; [done|]. split; [done|]. split.
  - apply (getElement_stored zero M' i j k); [done|lia|done|done].
  - intros Hcols. destruct Hslot as (lo & hi & _ & _ & _ & Hc).
    apply Hcols in Hc. lia.
Qed.

(** A negative row passes the bounds test as well: the read access is left
    by the exception of [rowind_.at], the write access reads [rowind_]
    before its first entry. *)
Theorem negative_row_access M i j :
  0 ≤ nrow_ M → i < 0 → j < ncol_ M →
  getElement zero M i j = Throw std_out_of_range ∧
  getElementRef zero i j M = (Undefined, M).
Proof.
  intros Hn Hi Hj. unfold getElement, getElementRef, size1, size2.
  destruct (Z.geb_spec i (nrow_ M)); [lia|].
  destruct (Z.geb_spec j (ncol_ M)); [lia|]. simpl.
  unfold Vec.at_. rewrite (idx_None (rowind_ M) i) by lia. done.
Qed.
End BoundsTest.

Lemma access_bounds_witness :
  let M := mkMatrix [7] [2] [0; 0; 1; 1] 3 3 in
  (nrow_ M ≤ 3 ∨ ncol_ M ≤ 1 →
     getElement 0 M 3 1 = Throw (CasadiException getElement_msg) ∧
     getElementRef 0 3 1 M = (Throw (CasadiException getElementRef_msg), M)) ∧
  (3 < nrow_ M ∧ 1 < ncol_ M →
     (∃ x, getElement 0 M 3 1 = Ret x) ∧
     (∃ k M', getElementRef 0 3 1 M = (Ret k, M'))).
Proof.
  apply (access_bounds 0 (mkMatrix [7] [2] [0; 0; 1; 1] 3 3) 3 1).
  - apply check_inv_sound. reflexivity.
  - lia.
  - lia.
Defined.

Lemma setElement_negative_column_witness :
  ∃ M', setElement 0 1 (-4) 5 (mkMatrix [7] [2] [0; 0; 1; 1] 3 3) = (Ret (), M') ∧
        Inv M' ∧ getElement 0 M' 1 (-4) = Ret 5 ∧ ¬ cols_in_range M'.
Proof.
  apply (setElement_negative_column 0 (mkMatrix [7] [2] [0; 0; 1; 1] 3 3) 1 (-4) 5).
  - apply check_inv_sound. reflexivity.
  - simpl. lia.
  - simpl. lia.
  - lia.
Defined.

Lemma negative_row_access_witness :
  getElement 0 (mkMatrix [7] [2] [0; 0; 1; 1] 3 3) (-1) 0 = Throw std_out_of_range ∧
  getElementRef 0 (-1) 0 (mkMatrix [7] [2] [0; 0; 1; 1] 3 3) =
    (Undefined, mkMatrix [7] [2] [0; 0; 1; 1] 3 3).
Proof.
  apply (negative_row_access 0 (mkMatrix [7] [2] [0; 0; 1; 1] 3 3) (-1) 0);
    simpl; lia.
Defined.

(** ** (Re-)initialisation, for every shape *)

Section Initialisation.
Context {T : Type}.
Variable zero : T.
Implicit Types (M : Matrix T).

(** [makeEmpty(n, m)] discards what the matrix stored: for [n >= 0] with
    [n + 1] an [int] it succeeds on every matrix, no entry is left, and
    [getElement] returns zero at every coordinate of the new shape. *)
Theorem makeEmpty_discards n m M0 :
  0 ≤ n < int_max →
  ∃ M, makeEmpty n m M0 = (Ret (), M) ∧ Inv M ∧
       nrow_ M = n ∧ ncol_ M = m ∧ vec M = [] ∧ col_ M = [] ∧
       ∀ i j, 0 ≤ i < n → j < m → getElement zero M i j = Ret zero.
Proof.
  intros Hn. eexists. split; [by apply makeEmpty_ok|].
  assert (0 ≤ n) as Hn0 by lia.
  pose proof (Inv_empty (T := T) n m Hn0) as HI.
  split; [done|]. split; [done|]. split; [done|]. split; [done|]. split; [done|].
  intros i j Hi Hj. apply getElement_absent; [done|done|done|].
  intros (k & lo & hi & _ & _ & _ & Hc). apply idx_Some in Hc. simpl in Hc. lia.
Qed.

(** The shape is not validated.  For [int]s [n], [n + 1] and [n * m],
    [makeDense(n, m, val)] returns exactly for the shapes with [n >= 0] and
    ([m >= 0] or [n = 0]); it writes [rowind_.back()] of an empty vector
    exactly for [n = -1] and [m <= 0]; for every other shape it is left by
    the [std::length_error] of a [resize]. *)
Theorem makeDense_outcome n m val M0 :
  int_min ≤ n < int_max → int_min ≤ n * m ≤ int_max →
  match makeDense n m val M0 with
  | (Ret _, M) => 0 ≤ n ∧ (0 ≤ m ∨ n = 0) ∧ nrow_ M = n ∧ ncol_ M = m
  | (Undefined, _) => n = -1 ∧ m ≤ 0
  | (Throw e, _) => e = std_length_error ∧ (n * m < 0 ∨ n < -1)
  end.
Proof.
  intros Hrn Hrnm.
  assert (Hwm : wrap (n * m) = n * m) by by apply wrap_id.
  assert (Hw1 : wrap (n + 1) = n + 1).
  { apply wrap_id. unfold int_min, int_max in *. lia. }
  destruct (Z_lt_le_dec (n * m) 0) as [Hneg|Hnm].
  { unfold makeDense, Vec.resize. simpl. rewrite Hwm.
    destruct (Z.ltb_spec (n * m) 0); [|lia]. split; [done|by left]. }
  destruct (Z_lt_le_dec n (-1)) as [Hn|Hn].
  { unfold makeDense, Vec.resize. simpl. rewrite Hwm, Hw1.
    destruct (Z.ltb_spec (n * m) 0); [lia|].
    destruct (Z.ltb_spec (n + 1) 0); [|lia]. split; [done|by right]. }
  destruct (Z_le_gt_dec n 0) as [Hn0|Hpos].
  - (* no row: the loop does not run *)
    unfold makeDense, Vec.resize, size1, size2. simpl. rewrite Hwm, Hw1.
    destruct (Z.ltb_spec (n * m) 0); [lia|].
    destruct (Z.ltb_spec (n + 1) 0); [lia|]. simpl.
    rewrite for_range_empty by lia.
    assert (n = -1 ∨ n = 0) as [->| ->] by lia.
    + change (Z.to_nat (-1 + 1)) with 0%nat. rewrite resize_0. simpl.
      split; [done|nia].
    + change (Z.to_nat (0 + 1)) with 1%nat.
      destruct (rowind_ M0); simpl; (split; [done|]; split; [by right|done]).
  - destruct (makeDense_ok n m val M0) as (M & -> & HD & _).
    { unfold shape_fits, int_max in *. nia. }
    split; [lia|]. split; [left; nia|].
    by rewrite (dp_nrow M n m HD), (dp_ncol M n m HD).
Qed.
End Initialisation.

Lemma makeEmpty_discards_witness :
  ∃ M, makeEmpty 2 3 (mkMatrix [7] [2] [0; 0; 1; 1] 3 3) = (Ret (), M) ∧ Inv M ∧
       nrow_ M = 2 ∧ ncol_ M = 3 ∧ vec M = [] ∧ col_ M = [] ∧
       ∀ i j, 0 ≤ i < 2 → j < 3 → getElement 0 M i j = Ret 0.
Proof. apply (makeEmpty_discards 0 2 3). unfold int_max. lia. Defined.

Lemma makeDense_outcome_witness :
  match makeDense 3 (-2) 5 (mkMatrix [7] [2] [0; 0; 1; 1] 3 3) with
  | (Ret _, M) => 0 ≤ 3 ∧ (0 ≤ -2 ∨ 3 = 0) ∧ nrow_ M = 3 ∧ ncol_ M = -2
  | (Undefined, _) => 3 = -1 ∧ -2 ≤ 0
  | (Throw e, _) => e = std_length_error ∧ (3 * -2 < 0 ∨ 3 < -1)
  end.
Proof.
  apply (makeDense_outcome 3 (-2) 5 (mkMatrix [7] [2] [0; 0; 1; 1] 3 3));
    unfold int_min, int_max; lia.
Defined.

(** ** The constructor of a column vector *)

(** For a vector [x] of fewer than [int_max] elements, [Matrix(x)]
    constructs what [Matrix(x, x.size(), 1)] constructs, the column with the
    converted elements of [x] in order. *)
Theorem vector_constructor {T A : Type} (zero one : T) (conv : A → T) (x : list A) :
  Z.of_nat (length x) < int_max →
  Matrix_vector one conv x = Matrix_shaped one conv x (Z.of_nat (length x)) 1 ∧
  ∃ M, Matrix_vector one conv x = Ret M ∧ Inv M ∧
       nrow_ M = Z.of_nat (length x) ∧ ncol_ M = 1 ∧ vec M = conv <$> x ∧
       ∀ i a, Vec.idx x i = Some a → getElement zero M i 0 = Ret (conv a).
Proof.
  intros Hlen.
  assert (Hfits : shape_fits (Z.of_nat (length x)) 1).
  { unfold shape_fits, int_max in *. lia. }
  assert (Hw : wrap (Z.of_nat (length x)) = Z.of_nat (length x)).
  { apply wrap_id. unfold int_min, int_max in *. lia. }
  split.
  { unfold Matrix_shaped, Matrix_vector.
    rewrite Z.mul_1_r, Hw, size_t_of_int_id by lia. by rewrite Z.eqb_refl. }
  unfold Matrix_vector. rewrite Hw.
  destruct (shaped_ok one conv x (Z.of_nat (length x)) 1) as (M & -> & HD & Hvec);
    [done|lia|].
  exists M. split; [done|].
  assert (Inv M) as HI by (apply (Inv_dense M _ 1 HD); lia).
  split; [done|].
  split; [apply (dp_nrow M _ _ HD)|]. split; [apply (dp_ncol M _ _ HD)|].
  split; [done|]. intros i a Ha. pose proof (idx_Some _ _ _ Ha) as Hi.
  pose proof (dense_slot M _ 1 i 0 HD Hi ltac:(lia)) as Hslot.
  apply (getElement_stored zero M i 0 (i * 1 + 0)); [done| |done|].
  - rewrite (dp_ncol M _ _ HD). lia.
  - rewrite Hvec. replace (i * 1 + 0) with i by lia.
    unfold Vec.idx in *. destruct (i <? 0); [done|].
    by rewrite list_lookup_fmap, Ha.
Qed.

Lemma vector_constructor_witness :
  Matrix_vector 1 id [4; 5; 6] = Matrix_shaped 1 id [4; 5; 6] (Z.of_nat 3) 1 ∧
  ∃ M, Matrix_vector 1 id [4; 5; 6] = Ret M ∧ Inv M ∧
       nrow_ M = Z.of_nat 3 ∧ ncol_ M = 1 ∧ vec M = id <$> [4; 5; 6] ∧
       ∀ i a, Vec.idx [4; 5; 6] i = Some a → getElement 0 M i 0 = Ret (id a).
Proof.
  apply (vector_constructor 0 1 id [4; 5; 6]). unfold int_max. simpl. lia.
Defined.

(** ** The size of the pattern *)

Section PatternSize.
Context {T : Type}.
Variable zero : T.
Implicit Types (M : Matrix T).

(** In a slice of strictly increasing columns that are not negative, the
    column of a slot is at least the offset of the slot. *)
Lemma sorted_slice_offset (col : list Z) lo hi (t : nat) c :
  sorted_slice col lo hi → 0 ≤ lo → hi ≤ Z.of_nat (length col) →
  (∀ k c, Vec.idx col k = Some c → 0 ≤ c) →
  lo + Z.of_nat t < hi → Vec.idx col (lo + Z.of_nat t) = Some c →
  Z.of_nat t ≤ c.
Proof.
  intros Hs Hlo Hhi Hpos. revert c. induction t as [|t IH]; intros c Ht Hc.
  - apply Hpos in Hc. lia.
  - destruct (idx_is_Some col (lo + Z.of_nat t)) as [c0 Hc0]; [lia|].
    assert (Z.of_nat t ≤ c0) by (apply IH; [lia|done]).
    assert (c0 < c); [|lia].
    apply (Hs (lo + Z.of_nat t) c0 c); [lia|lia|done|].
    by replace (lo + Z.of_nat t + 1) with (lo + Z.of_nat (S t)) by lia.
Qed.

(** A row stores no more entries than the matrix has columns. *)
Lemma row_length_le M i lo hi :
  WF M → Vec.idx (rowind_ M) i = Some lo → Vec.idx (rowind_ M) (i + 1) = Some hi →
  hi - lo ≤ ncol_ M.
Proof.
  intros (HI & Hcols & Hm) Hlo Hhi.
  pose proof (inv_rowind_bounds M i lo HI Hlo).
  pose proof (inv_rowind_bounds M (i + 1) hi HI Hhi).
  pose proof (inv_nnz M HI).
  destruct (Z_le_gt_dec hi lo); [lia|].
  destruct (idx_is_Some (col_ M) (hi - 1)) as [c Hc]; [lia|].
  pose proof (Hcols _ _ Hc).
  assert (Z.of_nat (Z.to_nat (hi - 1 - lo)) ≤ c); [|lia].
  apply (sorted_slice_offset (col_ M) lo hi); [by apply (inv_sorted M HI i)|lia|lia| |lia|].
  - intros k' c' Hc'. apply Hcols in Hc'. lia.
  - by replace (lo + Z.of_nat (Z.to_nat (hi - 1 - lo))) with (hi - 1) by lia.
Qed.

(** The bound on the number of stored entries. *)
Lemma nnz_bound M : WF M → Z.of_nat (length (vec M)) ≤ nrow_ M * ncol_ M.
Proof.
  intros HW. pose proof HW as (HI & _ & Hm).
  assert (Hrows : ∀ i : nat, Z.of_nat i ≤ nrow_ M →
            ∃ a, Vec.idx (rowind_ M) (Z.of_nat i) = Some a ∧
                 a ≤ Z.of_nat i * ncol_ M).
  { induction i as [|i IH]; intros Hi.
    - exists 0. split; [apply HI|lia].
    - destruct IH as (a & Ha & Hle); [lia|].
      destruct (inv_rowind M (Z.of_nat (S i)) HI) as [b Hb]; [lia|].
      exists b. split; [done|].
      assert (b - a ≤ ncol_ M); [|lia].
      apply (row_length_le M (Z.of_nat i)); [done|done|].
      by replace (Z.of_nat i + 1) with (Z.of_nat (S i)) by lia. }
  pose proof (inv_nrow M HI) as Hn.
  destruct (Hrows (Z.to_nat (nrow_ M))) as (a & Ha & Hle); [lia|].
  rewrite Z2Nat.id in Ha, Hle by done.
  rewrite (inv_last M HI) in Ha. by injection Ha as <-.
Qed.

(** A matrix that satisfies the data model stores no more entries than it
    has coordinates, the product of its sides; this is [numel()] when the
    product is an [int]. *)
Theorem nnz_le_numel M :
  WF M →
  Z.of_nat (length (vec M)) ≤ nrow_ M * ncol_ M ∧
  (nrow_ M * ncol_ M ≤ int_max → Z.of_nat (length (vec M)) ≤ numel M).
Proof.
  intros HW. pose proof (nnz_bound M HW) as Hle. split; [done|].
  intros Hfit. unfold numel, size1, size2.
  rewrite wrap_id; [done|]. unfold int_min. lia.
Qed.

(** ** The accessors of the pattern *)

(** [rowind(row)] returns for the rows [0, ..., nrow] and throws
    [std::out_of_range] for every other [row]; [col(el)] returns for the
    slots [0, ..., nnz - 1] and throws for every other [el]; [rowind(0)] is
    [0] and [rowind(nrow)] is the number of stored entries. *)
Theorem pattern_bounds M row el :
  Inv M →
  (0 ≤ row ≤ nrow_ M → ∃ a, Pattern.rowind M row = Ret a ∧
                            0 ≤ a ≤ Z.of_nat (length (vec M))) ∧
  (¬ (0 ≤ row ≤ nrow_ M) → Pattern.rowind M row = Throw std_out_of_range) ∧
  (0 ≤ el < Z.of_nat (length (vec M)) → ∃ c, Pattern.col M el = Ret c) ∧
  (¬ (0 ≤ el < Z.of_nat (length (vec M))) →
     Pattern.col M el = Throw std_out_of_range) ∧
  Pattern.rowind M 0 = Ret 0 ∧
  Pattern.rowind M (nrow_ M) = Ret (Z.of_nat (length (vec M))).
Proof.
  intros HI. pose proof (inv_length M HI) as Hlen. pose proof (inv_nnz M HI) as Hnnz.
  unfold Pattern.rowind, Pattern.col, Vec.at_.
  split; [|split; [|split; [|split; [|split]]]].
  - intros Hrow. destruct (inv_rowind M row HI Hrow) as [a Ha].
    exists a. rewrite Ha. split; [done|]. by apply (inv_rowind_bounds M row).
  - intros Hrow. rewrite idx_None; [done|lia].
  - intros Hel. destruct (idx_is_Some (col_ M) el) as [c ->]; [lia|]. by exists c.
  - intros Hel. rewrite idx_None; [done|lia].
  - by rewrite (inv_first M HI).
  - by rewrite (inv_last M HI).
Qed.

(** Walking the pattern through its accessors reads the matrix: for every
    slot [k] between [rowind(i)] and [rowind(i + 1)], [getElement] at row [i]
    and column [col(k)] returns the value of the slot. *)
Theorem pattern_round_trip M i :
  WF M → 0 ≤ i < nrow_ M →
  ∃ lo hi, Pattern.rowind M i = Ret lo ∧ Pattern.rowind M (i + 1) = Ret hi ∧
           lo ≤ hi ∧ hi - lo ≤ ncol_ M ∧
           ∀ k, lo ≤ k < hi →
             ∃ c x, Pattern.col M k = Ret c ∧ Vec.at_ (vec M) k = Ret x ∧
                    getElement zero M i c = Ret x.
Proof.
  intros HW Hi. pose proof HW as (HI & Hcols & Hm).
  destruct (inv_row M i HI Hi) as (lo & hi & Hlo & Hhi & Hbd & Hlen & _).
  exists lo, hi. unfold Pattern.rowind, Pattern.col.
  rewrite (at_Ret _ _ _ Hlo), (at_Ret _ _ _ Hhi).
  split; [done|]. split; [done|]. split; [lia|].
  split; [by apply (row_length_le M i)|].
  intros k Hk. pose proof (inv_nnz M HI).
  destruct (idx_is_Some (col_ M) k) as [c Hc]; [lia|].
  destruct (idx_is_Some (vec M) k) as [x Hx]; [lia|].
  exists c, x. rewrite (at_Ret _ _ _ Hc), (at_Ret _ _ _ Hx).
  split; [done|]. split; [done|].
  apply (getElement_stored zero M i c k); [done| |by exists lo, hi|done].
  apply Hcols in Hc. lia.
Qed.
End PatternSize.

Lemma nnz_le_numel_witness :
  let M := mkMatrix [7; 8] [2; 0] [0; 0; 1; 2] 3 3 in
  Z.of_nat (length (vec M)) ≤ nrow_ M * ncol_ M ∧
  (nrow_ M * ncol_ M ≤ int_max → Z.of_nat (length (vec M)) ≤ numel M).
Proof.
  apply (nnz_le_numel (mkMatrix [7; 8] [2; 0] [0; 0; 1; 2] 3 3)).
  split; [apply check_inv_sound; reflexivity|].
  split; [apply check_cols_sound; reflexivity|simpl; lia].
Defined.

Lemma pattern_bounds_witness :
  let M := mkMatrix [7; 8] [2; 0] [0; 0; 1; 2] 3 3 in
  (0 ≤ 2 ≤ nrow_ M → ∃ a, Pattern.rowind M 2 = Ret a ∧
                          0 ≤ a ≤ Z.of_nat (length (vec M))) ∧
  (¬ (0 ≤ 2 ≤ nrow_ M) → Pattern.rowind M 2 = Throw std_out_of_range) ∧
  (0 ≤ 5 < Z.of_nat (length (vec M)) → ∃ c, Pattern.col M 5 = Ret c) ∧
  (¬ (0 ≤ 5 < Z.of_nat (length (vec M))) →
     Pattern.col M 5 = Throw std_out_of_range) ∧
  Pattern.rowind M 0 = Ret 0 ∧
  Pattern.rowind M (nrow_ M) = Ret (Z.of_nat (length (vec M))).
Proof.
  apply (pattern_bounds (mkMatrix [7; 8] [2; 0] [0; 0; 1; 2] 3 3) 2 5).
  apply check_inv_sound. reflexivity.
Defined.

Lemma pattern_round_trip_witness :
  let M := mkMatrix [7; 8] [2; 0] [0; 0; 1; 2] 3 3 in
  ∃ lo hi, Pattern.rowind M 2 = Ret lo ∧ Pattern.rowind M (2 + 1) = Ret hi ∧
           lo ≤ hi ∧ hi - lo ≤ ncol_ M ∧
           ∀ k, lo ≤ k < hi →
             ∃ c x, Pattern.col M k = Ret c ∧ Vec.at_ (vec M) k = Ret x ∧
                    getElement 0 M 2 c = Ret x.
Proof.
  apply (pattern_round_trip 0 (mkMatrix [7; 8] [2; 0] [0; 0; 1; 2] 3 3) 2).
  - split; [apply check_inv_sound; reflexivity|].
    split; [apply check_cols_sound; reflexivity|simpl; lia].
  - simpl. lia.
Defined.

(** ** The print functions, called on their own *)

Section PrintDirect.
Context {T : Type}.
Variables (zero : T) (render : T → string).
Implicit Types (M : Matrix T) (out : ostream).
Local Open Scope string_scope.

(** [printScalar] prints the value of a matrix with one coordinate; on a
    matrix with any other number of coordinates it throws before it writes
    anything.  The number of coordinates is an [int]. *)
Theorem printScalar_direct M out :
  Inv M → (0 ≤ ncol_ M)%Z → (nrow_ M * ncol_ M ≤ int_max)%Z →
  ((nrow_ M * ncol_ M)%Z = 1%Z →
     numel M = 1%Z ∧
     printScalar zero render M out = (Ret (), out ++ render (value zero M 0 0))) ∧
  ((nrow_ M * ncol_ M)%Z ≠ 1%Z →
     numel M ≠ 1%Z ∧
     printScalar zero render M out = (Throw (CasadiException scalar_msg), out)).
Proof.
  intros HI Hm Hfit. pose proof (inv_nrow M HI) as Hn.
  assert (Hnumel : numel M = (nrow_ M * ncol_ M)%Z).
  { unfold numel, size1, size2. apply wrap_id. unfold int_min. nia. }
  unfold printScalar. rewrite Hnumel. split.
  - intros H1. split; [done|]. rewrite H1. simpl.
    apply writes_elem; [done|nia|nia].
  - intros H1. split; [done|].
    by destruct (Z.eqb_spec (nrow_ M * ncol_ M) 1).
Qed.

(** [printVector] prints the first column of every matrix that has a row
    and a column, whatever the number of its columns; on a matrix without a
    row or without a column it throws the out-of-bounds exception of
    [getElement] after it has written the head. *)
Theorem printVector_direct M out :
  Inv M →
  ((0 < nrow_ M)%Z ∧ (0 < ncol_ M)%Z →
     printVector zero render M out =
       (Ret (), out ++ "[" ++ render_int (nrow_ M) ++ "](" ++
                  format_column zero render M ++ ")")) ∧
  ((nrow_ M ≤ 0)%Z ∨ (ncol_ M ≤ 0)%Z →
     printVector zero render M out =
       (Throw (CasadiException getElement_msg),
        out ++ "[" ++ render_int (nrow_ M) ++ "](")).
Proof.
  intros HI. split.
  - intros [Hn Hm]. revert out. change (writes (printVector zero render M)
      ("[" ++ render_int (nrow_ M) ++ "](" ++ format_column zero render M ++ ")")).
    eapply writes_eq.
    + unfold printVector. repeat apply writes_seq; try apply writes_put.
      * apply writes_elem; [done|lia|lia].
      * apply (writes_for 1 (size1 M) _ (λ i, "," ++ render (value zero M i 0))).
        intros i Hi. unfold size1 in Hi.
        apply writes_seq; [apply writes_put|apply writes_elem; [done|lia|lia]].
    + unfold format_column, size1. rewrite (seqZ_first 0 (nrow_ M)) by lia.
      rewrite fmap_cons, join_cons, <- list_fmap_compose.
      by rewrite !append_assoc.
  - intros Hout. unfold printVector, pr_seq, put, put_elem, size1.
    rewrite getElement_out_of_bounds by lia.
    by rewrite !append_assoc.
Qed.

(** [printMatrix] prints every matrix that has a row and a column in the
    matrix style, a column and a single value as well; on a matrix without a
    row or without a column it throws the out-of-bounds exception of
    [getElement] after it has written the head. *)
Theorem printMatrix_direct M out :
  Inv M →
  ((0 < nrow_ M)%Z ∧ (0 < ncol_ M)%Z →
     printMatrix zero render M out =
       (Ret (), out ++ "[" ++ render_int (nrow_ M) ++ "," ++
                  render_int (ncol_ M) ++ "](" ++
                  join "," ((λ i, "(" ++ format_row zero render M i ++ ")")
                              <$> seqZ 0 (nrow_ M)) ++ ")")) ∧
  ((nrow_ M ≤ 0)%Z ∨ (ncol_ M ≤ 0)%Z →
     printMatrix zero render M out =
       (Throw (CasadiException getElement_msg),
        out ++ "[" ++ render_int (nrow_ M) ++ "," ++
          render_int (ncol_ M) ++ "]((")).
Proof.
  intros HI. split.
  - intros [Hn Hm]. by apply printMatrix_spec.
  - intros Hout. unfold printMatrix, pr_seq, put, put_elem, size1, size2.
    rewrite getElement_out_of_bounds by lia.
    rewrite !append_assoc. simpl. by rewrite ?append_assoc.
Qed.
End PrintDirect.

Lemma printScalar_direct_witness :
  let M := mkMatrix [7; 8] [2; 0] [0; 0; 1; 2] 3 3 in
  (nrow_ M * ncol_ M = 1 →
     numel M = 1 ∧
     printScalar 0 render_int M EmptyString =
       (Ret (), (EmptyString ++ render_int (value 0 M 0 0))%string)) ∧
  (nrow_ M * ncol_ M ≠ 1 →
     numel M ≠ 1 ∧
     printScalar 0 render_int M EmptyString =
       (Throw (CasadiException scalar_msg), EmptyString)).
Proof.
  apply (printScalar_direct 0 render_int
           (mkMatrix [7; 8] [2; 0] [0; 0; 1; 2] 3 3) EmptyString).
  - apply check_inv_sound. reflexivity.
  - simpl. lia.
  - unfold int_max. simpl. lia.
Defined.

Lemma printVector_direct_witness :
  let M := mkMatrix [7; 8] [2; 0] [0; 0; 1; 2] 3 3 in
  (0 < nrow_ M ∧ 0 < ncol_ M →
     printVector 0 render_int M EmptyString =
       (Ret (), (EmptyString ++ "[" ++ render_int (nrow_ M) ++ "](" ++
                   format_column 0 render_int M ++ ")")%string)) ∧
  (nrow_ M ≤ 0 ∨ ncol_ M ≤ 0 →
     printVector 0 render_int M EmptyString =
       (Throw (CasadiException getElement_msg),
        (EmptyString ++ "[" ++ render_int (nrow_ M) ++ "](")%string)).
Proof.
  apply (printVector_direct 0 render_int
           (mkMatrix [7; 8] [2; 0] [0; 0; 1; 2] 3 3) EmptyString).
  apply check_inv_sound. reflexivity.
Defined.

Lemma printMatrix_direct_witness :
  let M := mkMatrix [7; 8] [2; 0] [0; 0; 1; 2] 3 3 in
  (0 < nrow_ M ∧ 0 < ncol_ M →
     printMatrix 0 render_int M EmptyString =
       (Ret (), (EmptyString ++ "[" ++ render_int (nrow_ M) ++ "," ++
                   render_int (ncol_ M) ++ "](" ++
                   join "," ((λ i, "(" ++ format_row 0 render_int M i ++ ")")
                               <$> seqZ 0 (nrow_ M)) ++ ")")%string)) ∧
  (nrow_ M ≤ 0 ∨ ncol_ M ≤ 0 →
     printMatrix 0 render_int M EmptyString =
       (Throw (CasadiException getElement_msg),
        (EmptyString ++ "[" ++ render_int (nrow_ M) ++ "," ++
           render_int (ncol_ M) ++ "]((")%string)).
Proof.
  apply (printMatrix_direct 0 render_int
           (mkMatrix [7; 8] [2; 0] [0; 0; 1; 2] 3 3) EmptyString).
  apply check_inv_sound. reflexivity.
Defined.

(** ** Dense matrices, shapes and programs *)

(** On a matrix fresh from [makeDense] with a shape that fits, a write
    access never inserts: it returns the row-major position [i * m + j] of
    the coordinate and leaves the matrix as it is. *)
Theorem dense_write_access {T : Type} (zero : T) (n m : Z) (val : T) (M0 : Matrix T) :
  shape_fits n m →
  ∃ M, makeDense n m val M0 = (Ret (), M) ∧
       Z.of_nat (length (vec M)) = numel M ∧
       ∀ i j, 0 ≤ i < n → 0 ≤ j < m →
              getElementRef zero i j M = (Ret (i * m + j), M).
Proof.
  intros Hfits. destruct (shape_fits_wrap n m Hfits) as [_ Hwm].
  destruct (makeDense_ok n m val M0 Hfits) as (M & Hrun & HD & _).
  destruct Hfits as ([Hn _] & [Hm _] & _).
  exists M. split; [done|].
  pose proof (dp_nrow M n m HD) as Hnr. pose proof (dp_ncol M n m HD) as Hnc.
  split.
  { unfold numel, size1, size2. rewrite Hnr, Hnc, Hwm. apply (dp_vec M n m HD). }
  intros i j Hi Hj. apply getElementRef_stored.
  - by apply (Inv_dense M n m).
  - lia.
  - by apply (dense_slot M n m).
Qed.

Lemma dense_write_access_witness :
  ∃ M, makeDense 2 3 5 (mkMatrix [7] [2] [0; 0; 1; 1] 3 3) = (Ret (), M) ∧
       Z.of_nat (length (vec M)) = numel M ∧
       ∀ i j, 0 ≤ i < 2 → 0 ≤ j < 3 →
              getElementRef 0 i j M = (Ret (i * 3 + j), M).
Proof. apply (dense_write_access 0 2 3 5). unfold shape_fits, int_max. lia. Defined.

(** For a shape without a negative side whose product is an [int],
    [numel() == 1], on which [print] and [printScalar] decide, is
    [scalar()]; [empty()] is a side of length zero; a scalar is a vector and
    is not empty; and a single row of more than one column is no vector. *)
Theorem shape_classes {T : Type} (M : Matrix T) :
  0 ≤ nrow_ M → 0 ≤ ncol_ M → nrow_ M * ncol_ M ≤ int_max →
  (numel M = 1 ↔ scalar M = true) ∧
  (empty M = true ↔ nrow_ M = 0 ∨ ncol_ M = 0) ∧
  (scalar M = true → vector M = true ∧ empty M = false) ∧
  (nrow_ M = 1 → 1 < ncol_ M → vector M = false).
Proof.
  intros Hn Hm Hfit.
  assert (Hnumel : numel M = nrow_ M * ncol_ M).
  { unfold numel, size1, size2. apply wrap_id. unfold int_min. nia. }
  unfold scalar, empty, vector. rewrite Hnumel. unfold size1, size2.
  rewrite andb_true_iff, !Z.eqb_eq.
  split; [|split; [apply Z.mul_eq_0|split]].
  - split.
    + by apply Z.eq_mul_1_nonneg.
    + intros [-> ->]. lia.
  - intros [H1 H2]. split; [done|]. apply Z.eqb_neq. rewrite H1, H2. lia.
  - intros _ Hc. apply Z.eqb_neq. lia.
Qed.

Lemma shape_classes_witness :
  let M := mkMatrix [7] [0] [0; 1] 1 1 in
  (numel M = 1 ↔ scalar M = true) ∧
  (empty M = true ↔ nrow_ M = 0 ∨ ncol_ M = 0) ∧
  (scalar M = true → vector M = true ∧ empty M = false) ∧
  (nrow_ M = 1 → 1 < ncol_ M → vector M = false).
Proof.
  apply (shape_classes (mkMatrix [7] [0] [0; 1] 1 1));
    unfold int_max; simpl; lia.
Defined.

(** Every program of valid calls ends with a matrix whose stored columns
    are columns of the matrix, whose shape fits, and which stores no more
    entries than [numel()]. *)
Theorem programs_keep_columns {T A : Type} (zero one : T) (conv : A → T)
    (c : @ctor T A) (ops : list (@op T)) :
  valid_ctor c = true → valid_ops (shape_of c) ops = true →
  ∃ M, program zero one conv c ops = Ret M ∧
       cols_in_range M ∧ shape_fits (nrow_ M) (ncol_ M) ∧
       numel M = nrow_ M * ncol_ M ∧
       Z.of_nat (length (vec M)) ≤ numel M.
Proof.
  intros Hc Hops.
  destruct (program_ok zero one conv c ops Hc Hops) as (M & Hrun & HW & HF).
  exists M. split; [done|]. pose proof HW as (HI & Hcols & Hm).
  split; [done|]. split; [done|].
  assert (Hnumel : numel M = nrow_ M * ncol_ M).
  { unfold numel, size1, size2. apply (shape_fits_wrap _ _ HF). }
  split; [done|]. rewrite Hnumel. by apply nnz_bound.
Qed.

Lemma programs_keep_columns_witness :
  ∃ M, program 0 1 id (NewShaped [1; 2; 3; 4] 2 2)
         [OpSet 1 1 7; OpMakeEmpty 2 5; OpSet 1 4 4; OpRef 0 2; OpGet 1 1] = Ret M ∧
       cols_in_range M ∧ shape_fits (nrow_ M) (ncol_ M) ∧
       numel M = nrow_ M * ncol_ M ∧
       Z.of_nat (length (vec M)) ≤ numel M.
Proof. by apply (programs_keep_columns 0 1 id). Defined.

(** ** The shape arithmetic at the edge of [int] *)

(** [641 * 6700417] is [2^32 + 1]: [numel()] of the empty matrix of this
    shape is [1], and [print] takes the scalar branch. *)
Example numel_wraps :
  let M := mkMatrix (T := Z) [] [] (replicate 642 0) 641 6700417 in
  check_inv M = true ∧ numel M = 1 ∧ scalar M = false ∧
  print 0 render_int M EmptyString = (Ret (), "0"%string).
Proof. by vm_compute. Qed.

(** [makeEmpty(INT_MAX, 1)] is left by the [std::length_error] of
    [rowind_.resize(n + 1, 0)], with the shape assigned and the vectors
    cleared. *)
Example makeEmpty_int_max :
  makeEmpty 2147483647 1 (mkMatrix [7] [2] [0; 0; 1; 1] 3 3) =
    (Throw std_length_error, mkMatrix (T := Z) [] [] [] 2147483647 1).
Proof. by vm_compute. Qed.

(** [65536 * 65536] is [2^32]: [makeDense] resizes [col_] to no entry and
    then writes [col_[0]]. *)
Example makeDense_product_wraps :
  fst (makeDense 65536 65536 5 (mkMatrix [7] [2] [0; 0; 1; 1] 3 3)) = Undefined.
Proof. by vm_compute. Qed.

(** A sequence of one element passes the dimension test of the shape
    [(641, 6700417)], whose product is [1] in [int]. *)
Example shaped_product_wraps :
  Matrix_shaped (T := Z) 1 id [5] 641 6700417 ≠
    Throw (CasadiException dimension_msg).
Proof.
  unfold Matrix_shaped.
  assert (negb (Z.of_nat (length [5]) =? size_t_of_int (wrap (641 * 6700417)))
          = false) as -> by by vm_compute.
  intros H. by apply shaped_throws in H.
Qed.
